(** * MovieMagic recommender: the lookup core of [app.py]

    A shallow embedding of [get_recommendations], [load_models] and the
    request handler of [main], together with the library routines they
    run: [difflib.get_close_matches] (CPython's [SequenceMatcher]), the
    positional DataFrame accesses and the fitted nearest-neighbour index. *)

From Stdlib Require Import QArith.
From stdpp Require Import gmap list strings sorting.

Open Scope nat_scope.

(** ** Python values *)

(** A Python [str] is a sequence of code points. *)
Abbreviation char := N (only parsing).
Abbreviation str := (list N) (only parsing).

Definition py_str (s : string) : str :=
  (λ c, Ascii.N_of_ascii c) <$> String.list_ascii_of_string s.

(** Exceptions that the modelled code can raise. *)
Inductive exn :=
  | ValueError
  | IndexError
  | TypeError
  | FileNotFoundError
  | UnpicklingError.

Inductive result (A : Type) :=
  | Ok (x : A)
  | Raise (e : exn).
Arguments Ok {A} x.
Arguments Raise {A} e.

(** ** difflib *)

Module Difflib.

(** A [Match(a, b, size)] named tuple. *)
Abbreviation Match := (nat * nat * nat)%type (only parsing).

Definition match_size (m : Match) : nat := m.2.

(** [_calculate_ratio]: [2.0 * matches / length], or [1.0] for two empty
    sequences.  The float is kept as the exact rational; comparing these
    rationals with each other and with the cutoff [3/10] gives what the
    doubles give as long as [length] stays below [2^50]. *)
Definition _calculate_ratio (matches length : nat) : Q :=
  if bool_decide (length = 0) then 1%Q
  else (Z.of_nat (2 * matches) # Pos.of_nat length)%Q.

(** *** [SequenceMatcher.__chain_b] *)

(** [b2j.setdefault(elt, []).append(i)] *)
Definition setdefault_append (b2j : gmap N (list nat)) (elt : char) (i : nat)
  : gmap N (list nat) :=
  <[elt := default [] (b2j !! elt) ++ [i]]> b2j.

(** [for i, elt in enumerate(b)], started at index [i]. *)
Fixpoint chain_b_enumerate (b : str) (i : nat) (b2j : gmap N (list nat))
  : gmap N (list nat) :=
  match b with
  | [] => b2j
  | elt :: b' => chain_b_enumerate b' (S i) (setdefault_append b2j elt i)
  end.

(** The elements purged as "popular": only when [autojunk] (the default)
    and [len(b) >= 200]. *)
Definition is_popular (n : nat) (idxs : list nat) : bool :=
  (200 <=? n) && (n / 100 + 1 <? length idxs).

Definition purge_popular (n : nat) (b2j : gmap N (list nat))
  : gmap N (list nat) :=
  filter (λ kv, is_popular n kv.2 = false) b2j.

(** [isjunk] is [None] in [get_close_matches], so no junk is purged. *)
Definition chain_b (b : str) : gmap N (list nat) :=
  purge_popular (length b) (chain_b_enumerate b 0 ∅).

(** [bjunk] stays empty. *)
Definition isbjunk (elt : char) : bool := false.

(** *** [SequenceMatcher.find_longest_match] *)

(** [j2len.get(j - 1, 0)]: the key [-1] is never present. *)
Definition j2lenget (j2len : gmap nat nat) (j : nat) : nat :=
  match j with
  | 0 => 0
  | S j' => default 0 (j2len !! j')
  end.

(** The loop [for j in b2j.get(a[i], nothing)], with its [continue] and
    [break].  The state is [newj2len] and [(besti, bestj, bestsize)].
    [i-k+1] and [j-k+1] are written [i + 1 - k] and [j + 1 - k]: [k]
    never exceeds [i + 1] or [j + 1] (lemma [j2lenget_block]). *)
Fixpoint flm_inner (i blo bhi : nat) (j2len : gmap nat nat) (js : list nat)
    (newj2len : gmap nat nat) (best : Match) : gmap nat nat * Match :=
  match js with
  | [] => (newj2len, best)
  | j :: js' =>
      if j <? blo then flm_inner i blo bhi j2len js' newj2len best
      else if bhi <=? j then (newj2len, best)
      else
        let k := j2lenget j2len j + 1 in
        let best' := if best.2 <? k then (i + 1 - k, j + 1 - k, k) else best in
        flm_inner i blo bhi j2len js' (<[j := k]> newj2len) best'
  end.

(** One iteration of [for i in range(alo, ahi)]. *)
Definition flm_row (a : str) (b2j : gmap N (list nat)) (blo bhi : nat)
    (st : gmap nat nat * Match) (i : nat) : gmap nat nat * Match :=
  match a !! i with
  | Some elt =>
      flm_inner i blo bhi st.1 (default [] (b2j !! elt)) ∅ st.2
  | None => st
  end.

Definition flm_scan (a : str) (b2j : gmap N (list nat)) (alo ahi blo bhi : nat)
  : Match :=
  (foldl (flm_row a b2j blo bhi) (∅, (alo, blo, 0)) (seq alo (ahi - alo))).2.

(** [a[i] == b[j]] for indices that are in range. *)
Definition elt_eqb (x y : option N) : bool :=
  match x, y with
  | Some c, Some d => bool_decide (c = d)
  | _, _ => false
  end.

Definition junk_is (junk : bool) (x : option N) : bool :=
  match x with
  | Some c => bool_decide (isbjunk c = junk)
  | None => false
  end.

(** [while besti > alo and bestj > blo and (not) isbjunk(b[bestj-1]) and
    a[besti-1] == b[bestj-1]]: one step to the left per iteration; the
    recursion is on [besti]. *)
Fixpoint extend_left (a b : str) (junk : bool) (alo blo : nat)
    (besti bestj bestsize : nat) : Match :=
  match besti with
  | 0 => (besti, bestj, bestsize)
  | S i' =>
      if (alo <? besti) && (blo <? bestj)
         && junk_is junk (b !! (bestj - 1))
         && elt_eqb (a !! i') (b !! (bestj - 1))
      then extend_left a b junk alo blo i' (bestj - 1) (bestsize + 1)
      else (besti, bestj, bestsize)
  end.

(** [while besti+bestsize < ahi and bestj+bestsize < bhi and ...]: the
    recursion is on [room = ahi - (besti + bestsize)]. *)
Fixpoint extend_right (a b : str) (junk : bool) (bhi : nat)
    (besti bestj : nat) (room : nat) (bestsize : nat) : nat :=
  match room with
  | 0 => bestsize
  | S room' =>
      if (bestj + bestsize <? bhi)
         && junk_is junk (b !! (bestj + bestsize))
         && elt_eqb (a !! (besti + bestsize)) (b !! (bestj + bestsize))
      then extend_right a b junk bhi besti bestj room' (bestsize + 1)
      else bestsize
  end.

Definition extend (a b : str) (junk : bool) (alo ahi blo bhi : nat)
    (m : Match) : Match :=
  let '(besti, bestj, bestsize) :=
    extend_left a b junk alo blo m.1.1 m.1.2 m.2 in
  (besti, bestj,
   extend_right a b junk bhi besti bestj (ahi - (besti + bestsize)) bestsize).

Definition find_longest_match (a b : str) (b2j : gmap N (list nat))
    (alo ahi blo bhi : nat) : Match :=
  extend a b true alo ahi blo bhi
    (extend a b false alo ahi blo bhi (flm_scan a b2j alo ahi blo bhi)).

(** *** [SequenceMatcher.get_matching_blocks] *)

Abbreviation range4 := (nat * nat * nat * nat)%type (only parsing).

(** The [while queue:] loop.  [queue.pop()] takes the last element and
    [append] adds at the end, so the queue is kept with its end first.
    [None] stands for a loop that has not finished within [fuel] steps. *)
Fixpoint mb_loop (a b : str) (b2j : gmap N (list nat)) (fuel : nat)
    (queue : list range4) (matching_blocks : list Match)
  : option (list Match) :=
  match queue with
  | [] => Some matching_blocks
  | (alo, ahi, blo, bhi) :: queue' =>
      match fuel with
      | 0 => None
      | S fuel' =>
          let x := find_longest_match a b b2j alo ahi blo bhi in
          let '(i, j, k) := x in
          if bool_decide (k = 0) then
            mb_loop a b b2j fuel' queue' matching_blocks
          else
            let q1 :=
              if (alo <? i) && (blo <? j)
              then (alo, i, blo, j) :: queue' else queue' in
            let q2 :=
              if (i + k <? ahi) && (j + k <? bhi)
              then (i + k, ahi, j + k, bhi) :: q1 else q1 in
            mb_loop a b b2j fuel' q2 (matching_blocks ++ [x])
      end
  end.

(** Tuple comparison of two [Match]es, as [list.sort] uses it. *)
Definition match_leb (x y : Match) : bool :=
  let '(i1, j1, k1) := x in
  let '(i2, j2, k2) := y in
  (i1 <? i2) || ((i1 =? i2) && ((j1 <? j2) || ((j1 =? j2) && (k1 <=? k2)))).

Fixpoint sort_insert (x : Match) (l : list Match) : list Match :=
  match l with
  | [] => [x]
  | y :: l' => if match_leb x y then x :: y :: l' else y :: sort_insert x l'
  end.

(** [matching_blocks.sort()] *)
Definition sort_blocks (l : list Match) : list Match :=
  foldr sort_insert [] l.

(** The loop that merges adjacent blocks; the state is [(i1, j1, k1)] and
    [non_adjacent]. *)
Fixpoint collapse (l : list Match) (cur : Match) (non_adjacent : list Match)
  : Match * list Match :=
  match l with
  | [] => (cur, non_adjacent)
  | (i2, j2, k2) :: l' =>
      let '(i1, j1, k1) := cur in
      if bool_decide (i1 + k1 = i2) && bool_decide (j1 + k1 = j2)
      then collapse l' (i1, j1, k1 + k2) non_adjacent
      else
        collapse l' (i2, j2, k2)
          (if bool_decide (k1 = 0) then non_adjacent
           else non_adjacent ++ [cur])
  end.

Definition non_adjacent_blocks (la lb : nat) (blocks : list Match)
  : list Match :=
  let '(cur, non_adjacent) := collapse (sort_blocks blocks) (0, 0, 0) [] in
  (if bool_decide (cur.2 = 0) then non_adjacent else non_adjacent ++ [cur])
    ++ [(la, lb, 0)].

(** Loop iterations that [get_matching_blocks] can need. *)
Definition mb_fuel (a : str) : nat := 2 * length a + 1.

Definition get_matching_blocks_opt (a b : str) (b2j : gmap N (list nat))
  : option (list Match) :=
  non_adjacent_blocks (length a) (length b)
    <$> mb_loop a b b2j (mb_fuel a) [(0, length a, 0, length b)] [].

(** The loop always finishes within [mb_fuel] (lemma
    [get_matching_blocks_opt_total] below), so the default is never
    taken. *)
Definition get_matching_blocks (a b : str) (b2j : gmap N (list nat))
  : list Match :=
  default [] (get_matching_blocks_opt a b b2j).

(** *** The three ratios *)

Definition sum_sizes (blocks : list Match) : nat :=
  foldr (λ triple acc, match_size triple + acc) 0 blocks.

(** [SequenceMatcher.ratio], with [b2j] as [set_seq2] has built it. *)
Definition ratio_with (a b : str) (b2j : gmap N (list nat)) : Q :=
  _calculate_ratio (sum_sizes (get_matching_blocks a b b2j))
                   (length a + length b).

Definition ratio (a b : str) : Q := ratio_with a b (chain_b b).

(** [fullbcount[elt] = fullbcount.get(elt, 0) + 1] for every [elt] of [b] *)
Definition fullbcount (b : str) : gmap N Z :=
  foldl (λ (m : gmap N Z) elt, <[elt := (default 0 (m !! elt) + 1)%Z]> m) ∅ b.

(** One iteration of [for elt in self.a] in [quick_ratio]: the state is
    [avail] and [matches]. *)
Definition quick_step (fbc : gmap N Z) (st : gmap N Z * nat) (elt : char)
  : gmap N Z * nat :=
  let numb :=
    match st.1 !! elt with
    | Some n => n
    | None => default 0%Z (fbc !! elt)
    end in
  (<[elt := (numb - 1)%Z]> st.1,
   if (0 <? numb)%Z then st.2 + 1 else st.2).

Definition quick_matches (a b : str) : nat :=
  (foldl (quick_step (fullbcount b)) (∅, 0) a).2.

Definition quick_ratio (a b : str) : Q :=
  _calculate_ratio (quick_matches a b) (length a + length b).

Definition real_quick_ratio (a b : str) : Q :=
  _calculate_ratio (length a `min` length b) (length a + length b).

End Difflib.

(** *** [get_close_matches] *)

Module CloseMatches.
Import Difflib.

(** [str] comparison: by code point, a proper prefix is smaller. *)
Fixpoint str_compare (x y : str) : comparison :=
  match x, y with
  | [], [] => Eq
  | [], _ :: _ => Lt
  | _ :: _, [] => Gt
  | c :: x', d :: y' =>
      match (c ?= d)%N with
      | Eq => str_compare x' y'
      | o => o
      end
  end.

(** [(score, x) > (score', x')] on tuples: the first components that
    differ decide. *)
Definition scored_gtb (p q : Q * list N) : bool :=
  match (p.1 ?= q.1)%Q with
  | Gt => true
  | Lt => false
  | Eq => match str_compare p.2 q.2 with Gt => true | _ => false end
  end.

(** [max(it)]: the running maximum is replaced only by a strictly
    greater item, so the first of several maximal items is kept. *)
Fixpoint max_from (cur : Q * list N) (l : list (Q * list N)) : Q * list N :=
  match l with
  | [] => cur
  | x :: l' => max_from (if scored_gtb x cur then x else cur) l'
  end.

(** [heapq.nlargest(1, result)]: the [n == 1] shortcut through [max]. *)
Definition nlargest1 (l : list (Q * list N)) : list (Q * list N) :=
  match l with
  | [] => []
  | x :: l' => [max_from x l']
  end.

(** The test that guards [result.append((s.ratio(), x))]. *)
Definition good_enough (b2j : gmap N (list nat)) (word : str) (cutoff : Q)
    (x : str) : bool :=
  Qle_bool cutoff (real_quick_ratio x word)
  && Qle_bool cutoff (quick_ratio x word)
  && Qle_bool cutoff (ratio_with x word b2j).

(** The loop [for x in possibilities]; [s.set_seq2(word)] has built
    [b2j] once, each [s.set_seq1(x)] makes [x] the first sequence. *)
Fixpoint scan_possibilities (b2j : gmap N (list nat)) (word : str)
    (cutoff : Q) (possibilities : list (list N)) : list (Q * list N) :=
  match possibilities with
  | [] => []
  | x :: rest =>
      if good_enough b2j word cutoff x
      then (ratio_with x word b2j, x)
             :: scan_possibilities b2j word cutoff rest
      else scan_possibilities b2j word cutoff rest
  end.

(** [get_close_matches(word, possibilities, n=1, cutoff)].  The call of
    [get_recommendations] passes [n=1], which passes the [n > 0] check and
    selects the [max] shortcut of [_nlargest]. *)
Definition get_close_matches (word : str) (possibilities : list (list N))
    (cutoff : Q) : result (list (list N)) :=
  if negb (Qle_bool 0 cutoff && Qle_bool cutoff 1) then Raise ValueError
  else
    Ok (snd <$> nlargest1
          (scan_possibilities (chain_b word) word cutoff possibilities)).

End CloseMatches.

(** ** The Model Store artifacts *)

(** A row of the catalog DataFrame.  The frame carries the default
    [RangeIndex]: the label of a row is its position, which is also its
    row in the feature matrix. *)
Record Movie := {
  title : list N;
  year : Z;
  genres : list (list N)
}.

(** A row of the sparse tf-idf matrix, as the sequence of its entries. *)
Abbreviation FeatureVec := (list Q) (only parsing).

(** The fitted nearest-neighbour index: the number of neighbours it was
    configured with, the samples it was fitted on and its metric.
    Distances are kept as rationals. *)
Record NearestNeighbors := {
  n_neighbors : nat;
  fit_X : list (list Q);
  metric : list Q → list Q → Q
}.

Module Sklearn.

(** Stable insertion of a [(distance, sample)] pair into an ascending
    list: an entry goes after the entries at the same distance. *)
Fixpoint insert_by_distance (p : Q * nat) (l : list (Q * nat))
  : list (Q * nat) :=
  match l with
  | [] => [p]
  | q :: l' =>
      if Qle_bool q.1 p.1 then q :: insert_by_distance p l'
      else p :: q :: l'
  end.

(** All samples by ascending distance; samples at equal distance stay in
    the order of the training data. *)
Definition sort_by_distance (l : list (Q * nat)) : list (Q * nat) :=
  foldl (λ acc p, insert_by_distance p acc) [] l.

Definition distances_to (knn : NearestNeighbors) (x : list Q)
  : list (Q * nat) :=
  imap (λ i v, (metric knn x v, i)) (fit_X knn).

(** [knn.kneighbors(X)] for a single query row, without [n_neighbors]:
    the [n_neighbors] nearest fitted samples by ascending distance, as
    [(distances[0], indices[0])]; among samples at the same distance the
    one that comes first in the training data is listed first.  It raises
    [ValueError] when the index holds fewer samples than [n_neighbors];
    a fitted index has [n_neighbors >= 1]. *)
Definition kneighbors (knn : NearestNeighbors) (x : list Q)
  : result (list Q * list nat) :=
  if (n_neighbors knn =? 0) || (length (fit_X knn) <? n_neighbors knn)
  then Raise ValueError
  else
    let nearest :=
      take (n_neighbors knn) (sort_by_distance (distances_to knn x)) in
    Ok (fst <$> nearest, snd <$> nearest).

End Sklearn.

Record ModelStore := {
  movies : list Movie;
  knn : NearestNeighbors;
  tfidf_matrix : list (list Q)
}.

(** A file under [models/]. *)
Inductive file (A : Type) :=
  | Missing
  | Malformed
  | Stored (x : A).
Arguments Missing {A}.
Arguments Malformed {A}.
Arguments Stored {A} x.

Record disk := {
  movies_joblib : file (list Movie);
  knn_model_joblib : file NearestNeighbors;
  tfidf_matrix_npz : file (list (list Q))
}.

(** What the page shows. *)
Inductive ui_event :=
  | Markdown (html : string)
  | Success (because_title : list N) (because_year : Z)
  | Card (row : Movie)
  | Pyplot (chart : string)
  | Error (msg : string)
  | Warning (msg : string).

(** The process state: the files, the [st.cache_resource] cache of
    [load_models], the queries that the neighbour index has answered and
    the page rendered so far. *)
Record world := {
  files : disk;
  cache : option ModelStore;
  kneighbors_log : list (list Q);
  page : list ui_event
}.

(** ** A state and exception monad for the handlers *)

Definition M (A : Type) : Type := world → result A * world.

Definition ret {A} (x : A) : M A := λ w, (Ok x, w).
Definition raise {A} (e : exn) : M A := λ w, (Raise e, w).
Definition bind {A B} (m : M A) (k : A → M B) : M B :=
  λ w, match m w with
       | (Ok x, w') => k x w'
       | (Raise e, w') => (Raise e, w')
       end.
Definition lift {A} (r : result A) : M A := λ w, (r, w).

#[global] Instance M_ret : MRet M := @ret.
#[global] Instance M_bind : MBind M := λ A B k m, bind m k.

Definition show (ev : ui_event) : M unit :=
  λ w, (Ok tt, {| files := files w; cache := cache w;
                  kneighbors_log := kneighbors_log w;
                  page := page w ++ [ev] |}).

Definition log_kneighbors (x : list Q) : M unit :=
  λ w, (Ok tt, {| files := files w; cache := cache w;
                  kneighbors_log := kneighbors_log w ++ [x];
                  page := page w |}).

(** ** [app.py] *)

Module App.

(** [joblib.load] and [load_npz] of one file. *)
Definition load {A} (f : file A) (malformed : exn) : result A :=
  match f with
  | Missing => Raise FileNotFoundError
  | Malformed => Raise malformed
  | Stored x => Ok x
  end.

(** The body of [load_models]: the three entries of the dict, in order. *)
Definition read_models (d : disk) : result ModelStore :=
  match load (movies_joblib d) UnpicklingError with
  | Raise e => Raise e
  | Ok m =>
      match load (knn_model_joblib d) UnpicklingError with
      | Raise e => Raise e
      | Ok k =>
          match load (tfidf_matrix_npz d) ValueError with
          | Raise e => Raise e
          | Ok t => Ok {| movies := m; knn := k; tfidf_matrix := t |}
          end
      end
  end.

(** [load_models] under [@st.cache_resource]: the body runs on the first
    call and its value is kept for the process lifetime; a call that
    raises caches nothing. *)
Definition load_models : M ModelStore :=
  λ w, match cache w with
       | Some models => (Ok models, w)
       | None =>
           match read_models (files w) with
           | Ok models =>
               (Ok models, {| files := files w; cache := Some models;
                              kneighbors_log := kneighbors_log w;
                              page := page w |})
           | Raise e => (Raise e, w)
           end
       end.

(** A frame selected from the catalog: rows with their index labels. *)
Abbreviation Frame := (list (nat * Movie)) (only parsing).

(** [movies[mask].index[0]]: the label of the first row that the mask
    keeps; [IndexError] on an empty selection. *)
Fixpoint first_index_from (mask : list bool) (i : nat) : result nat :=
  match mask with
  | [] => Raise IndexError
  | true :: _ => Ok i
  | false :: mask' => first_index_from mask' (S i)
  end.

(** [movies.iloc[idx]] for one position. *)
Definition iloc (movies : list Movie) (idx : nat) : result Movie :=
  match movies !! idx with
  | Some row => Ok row
  | None => Raise IndexError
  end.

(** [movies.iloc[positions]] for an array of positions: every position
    has to be in bounds. *)
Fixpoint iloc_take (movies : list Movie) (positions : list nat)
  : result (list (nat * Movie)) :=
  match positions with
  | [] => Ok []
  | p :: positions' =>
      match movies !! p with
      | None => Raise IndexError
      | Some row =>
          match iloc_take movies positions' with
          | Ok rows => Ok ((p, row) :: rows)
          | Raise e => Raise e
          end
      end
  end.

(** [tfidf_matrix[movie_idx]] *)
Definition getrow (matrix : list (list Q)) (idx : nat) : result (list Q) :=
  match matrix !! idx with
  | Some v => Ok v
  | None => Raise IndexError
  end.

(** [indices[0][1:n+1]] *)
Definition slice_1_to (n : nat) (indices : list nat) : list nat :=
  take n (drop 1 indices).

Section WithLower.

(** [str.lower], also behind [Series.str.lower]. *)
Variable lower : list N → list N.

(** [movies['title'].str.lower()] *)
Definition lower_titles (movies : list Movie) : list (list N) :=
  (λ row, lower (title row)) <$> movies.

(** [movies['title'].str.lower() == s] *)
Definition title_mask (movies : list Movie) (s : list N) : list bool :=
  (λ t, bool_decide (t = s)) <$> lower_titles movies.

(** The fuzzy match of lines 95-101: the matched string and the index of
    the row it resolves to, or [None] for "no match". *)
Definition resolve (movie_title : list N) (movies : list Movie)
  : result (option (list N * nat)) :=
  match CloseMatches.get_close_matches (lower movie_title)
          (lower_titles movies) (3 # 10) with
  | Raise e => Raise e
  | Ok [] => Ok None
  | Ok (m0 :: _) =>
      match first_index_from (title_mask movies m0) 0 with
      | Raise e => Raise e
      | Ok movie_idx => Ok (Some (m0, movie_idx))
      end
  end.

Definition get_recommendations (movie_title : list N) (models : ModelStore)
    (n : nat) : M (option (list (nat * Movie)) * option Movie) :=
  let movies := movies models in
  let knn := knn models in
  let tfidf_matrix := tfidf_matrix models in
  r ← lift (resolve movie_title movies);
  match r with
  | None => mret (None, None)
  | Some (_, movie_idx) =>
      x ← lift (getrow tfidf_matrix movie_idx);
      log_kneighbors x;;
      '(distances, indices) ← lift (Sklearn.kneighbors knn x);
      recommendations ← lift (iloc_take movies (slice_1_to n indices));
      original ← lift (iloc movies movie_idx);
      mret (Some recommendations, Some original)
  end.

(** The three chart helpers: each one ends in [st.pyplot(fig)].  What
    the plotting libraries draw, and whether they accept the frame, is
    not modelled. *)
Definition show_charts (recommendations : list (nat * Movie)) : M unit :=
  show (Pyplot "Genre Word Cloud");;
  show (Pyplot "Genre Distribution");;
  show (Pyplot "Release Year Distribution").

(** The branch of [main] on the pair that [get_recommendations] gave. *)
Definition render (recommendations : option (list (nat * Movie)))
    (original : option Movie) : M unit :=
  match recommendations with
  | Some recs =>
      match original with
      | None => raise TypeError
      | Some o =>
          show (Success (title o) (year o));;
          show (Markdown "#### Recommended Movies");;
          foldr (λ r k, show (Card r.2);; k) (mret tt) recs;;
          show (Markdown "#### Visual Insights");;
          show_charts recs
      end
  | None =>
      show (Error "Movie not found. Try being more specific or check spelling.")
  end.

(** One run of [main]: [movie_title] is what the text input holds and
    [clicked] what [st.button] returns.  The style sheet, the header and
    the footer are each one [st.markdown] whose HTML is abbreviated. *)
Definition main (movie_title : list N) (clicked : bool) : M unit :=
  show (Markdown "<style>");;
  show (Markdown "header");;
  models ← load_models;
  (if clicked then
     if bool_decide (movie_title ≠ []) then
       '(recommendations, original) ←
         get_recommendations movie_title models 5;
       render recommendations original
     else show (Warning "Please enter a movie title to get recommendations")
   else mret tt);;
  show (Markdown "footer").

End WithLower.

End App.

(** ** Specification vocabulary *)

Module Spec.

(** [m = (i, j, k)] is a common block of [a[alo:ahi]] and [b[blo:bhi]]:
    it lies in both windows and [a[i:i+k] == b[j:j+k]]. *)
Definition valid_block (a b : list N) (alo ahi blo bhi : nat)
    (m : nat * nat * nat) : Prop :=
  alo ≤ m.1.1 ∧ m.1.1 + m.2 ≤ ahi ∧ blo ≤ m.1.2 ∧ m.1.2 + m.2 ≤ bhi
  ∧ ∀ t, t < m.2 → a !! (m.1.1 + t) = b !! (m.1.2 + t).

(** Every index list of [b2j] holds positions of its key in [b]. *)
Definition b2j_sound (b : list N) (b2j : gmap N (list nat)) : Prop :=
  ∀ c js j, b2j !! c = Some js → j ∈ js → b !! j = Some c.

(** A window handed to [find_longest_match]. *)
Definition window_ok (a b : list N) (r : nat * nat * nat * nat) : Prop :=
  r.1.1.1 ≤ r.1.1.2 ∧ r.1.1.2 ≤ length a ∧ r.1.2 ≤ r.2 ∧ r.2 ≤ length b.

(** The slice [s[lo:hi]]. *)
Definition slice (s : list N) (lo hi : nat) : list N :=
  take (hi - lo) (drop lo s).

(** The termination measure of the [while queue:] loop. *)
Definition queue_measure (queue : list (nat * nat * nat * nat)) : nat :=
  foldr (λ r acc, 2 * (r.1.1.2 - r.1.1.1) + 1 + acc) 0 queue.

(** [j2len] after the rows below [i]: every entry is the length of a
    common block that ends at row [i - 1] and at the column of the
    entry. *)
Definition j2len_ok (a b : list N) (alo ahi blo bhi : nat) (i : nat)
    (j2len : gmap nat nat) : Prop :=
  ∀ j k, j2len !! j = Some k →
    1 ≤ k ∧ k ≤ i ∧ k ≤ j + 1
    ∧ valid_block a b alo ahi blo bhi (i - k, j + 1 - k, k).

(** The positions of [c] in [b], numbered from [i]. *)
Fixpoint positions (c : N) (b : list N) (i : nat) : list nat :=
  match b with
  | [] => []
  | e :: b' =>
      if decide (e = c) then i :: positions c b' (S i)
      else positions c b' (S i)
  end.

(** The blocks that the loop finds inside one window add up to [c]:
    [c] is bounded by both window lengths, and a window that is matched
    in full on both sides holds equal slices. *)
Definition contribution_ok (a b : list N) (r : nat * nat * nat * nat)
    (c : nat) : Prop :=
  c ≤ r.1.1.2 - r.1.1.1 ∧ c ≤ r.2 - r.1.2
  ∧ (c = r.1.1.2 - r.1.1.1 → c = r.2 - r.1.2 →
     slice a r.1.1.1 r.1.1.2 = slice b r.1.2 r.2).

(** The number of consecutive elements just below position [i] of [a]
    that are keys of [b2j] (elements that are not "popular"). *)
Fixpoint diag_run (a : list N) (b2j : gmap N (list nat)) (i : nat) : nat :=
  match i with
  | 0 => 0
  | S i' =>
      match a !! i' with
      | Some c =>
          if decide (is_Some (b2j !! c)) then diag_run a b2j i' + 1 else 0
      | None => 0
      end
  end.

(** When [a] is matched against itself, the state of the scan before
    row [i]: no entry of [j2len] exceeds the diagonal runs, the entry
    on the diagonal is the run itself, and the best block lies on the
    diagonal and is no shorter than any diagonal run seen. *)
Definition j2len_below (a : list N) (b2j : gmap N (list nat)) (i : nat)
    (j2len : gmap nat nat) : Prop :=
  ∀ j k, j2len !! j = Some k →
    k ≤ diag_run a b2j (S j) ∧ k ≤ diag_run a b2j i.

Definition best_diag (a : list N) (b2j : gmap N (list nat)) (i : nat)
    (best : nat * nat * nat) : Prop :=
  best.1.1 = best.1.2 ∧ ∀ i', i' ≤ i → diag_run a b2j i' ≤ best.2.

Definition self_scan_inv (a : list N) (b2j : gmap N (list nat)) (i : nat)
    (st : gmap nat nat * (nat * nat * nat)) : Prop :=
  j2len_below a b2j i st.1
  ∧ Difflib.j2lenget st.1 i = diag_run a b2j i
  ∧ best_diag a b2j i st.2.

(** Occurrences of [c] in [l]. *)
Fixpoint occurrences (c : N) (l : list N) : Z :=
  match l with
  | [] => 0
  | e :: l' => ((if decide (e = c) then 1 else 0) + occurrences c l')%Z
  end.

(** What [quick_ratio] reads for [elt]: [avail[elt]] when present, else
    [fullbcount.get(elt, 0)]. *)
Definition available (fbc avail : gmap N Z) (elt : N) : Z :=
  match avail !! elt with
  | Some n => n
  | None => default 0%Z (fbc !! elt)
  end.

(** The order in which [kneighbors] lists its [(distance, sample)]
    pairs. *)
Definition by_distance (p q : Q * nat) : Prop := (p.1 <= q.1)%Q.

(** A file that [joblib.load] or [load_npz] cannot read. *)
Definition unreadable {A} (f : file A) : Prop :=
  match f with
  | Stored _ => False
  | _ => True
  end.

(** The message of the "not found" outcome. *)
Definition not_found_msg : string :=
  "Movie not found. Try being more specific or check spelling.".

(** [s] is a common subsequence of the two slices of a window. *)
Definition common_ok (a b : list N) (r : nat * nat * nat * nat)
    (s : list N) : Prop :=
  s `sublist_of` slice a r.1.1.1 r.1.1.2
  ∧ s `sublist_of` slice b r.1.2 r.2.


(** What a handler may do to the process state: it leaves the files
    alone, it may fill an empty cache but never replaces a cached store,
    it appends at most [n] queries to the log of the index and it only
    appends to the page. *)
Definition after (n : nat) (w w' : world) : Prop :=
  files w' = files w
  ∧ (cache w = None ∨ cache w' = cache w)
  ∧ (∃ qs, kneighbors_log w' = kneighbors_log w ++ qs ∧ length qs ≤ n)
  ∧ ∃ evs, page w' = page w ++ evs.

End Spec.

(** ** Sample data *)

Module Examples.

(** [str.lower] on ASCII text. *)
Definition ascii_lower (s : list N) : list N :=
  (λ c, if ((65 <=? c) && (c <=? 90))%N then (c + 32)%N else c) <$> s.

Definition movie (t : string) (y : Z) (g : string) : Movie :=
  {| title := py_str t; year := y; genres := [py_str g] |}.

(** A rational-valued metric: the squared Euclidean distance. *)
Definition sqeuclidean (x y : list Q) : Q :=
  foldr Qplus 0%Q (zip_with (λ u v, (u - v) * (u - v))%Q x y).

(** Five movies; the first two have the same feature vector, and rows
    2 and 3 have titles that differ in case only. *)
Definition alien : Movie := movie "Alien" 1979 "Horror".
Definition aliens : Movie := movie "Aliens" 1986 "Action".
Definition heat_1986 : Movie := movie "HEAT" 1986 "Action".
Definition heat_1995 : Movie := movie "Heat" 1995 "Crime".
Definition dark_knight : Movie := movie "The Dark Knight" 2008 "Action".

Definition catalog : list Movie :=
  [alien; aliens; heat_1986; heat_1995; dark_knight].

Definition features : list (list Q) :=
  [ [1; 0]; [1; 0]; [0; 1]; [0; 2]; [3; 3] ]%Q.

Definition index (k : nat) (samples : list (list Q)) : NearestNeighbors :=
  {| n_neighbors := k; fit_X := samples; metric := sqeuclidean |}.

(** A consistent store whose index was configured with 3 neighbours. *)
Definition store : ModelStore :=
  {| movies := catalog; knn := index 3 features; tfidf_matrix := features |}.

(** Artifacts of three different sizes: 5 movies, 4 matrix rows and an
    index fitted on 3 samples. *)
Definition mismatched_store : ModelStore :=
  {| movies := catalog;
     knn := index 2 (take 3 features);
     tfidf_matrix := take 4 features |}.

Definition disk_of (m : ModelStore) : disk :=
  {| movies_joblib := Stored (movies m);
     knn_model_joblib := Stored (knn m);
     tfidf_matrix_npz := Stored (tfidf_matrix m) |}.

(** A fresh process over the given files. *)
Definition fresh (d : disk) : world :=
  {| files := d; cache := None; kneighbors_log := []; page := [] |}.

(** A process whose cache holds the consistent store. *)
Definition loaded : world :=
  {| files := disk_of store; cache := Some store;
     kneighbors_log := []; page := [] |}.

(** A process that finds no index file. *)
Definition no_index : world :=
  fresh {| movies_joblib := Stored catalog;
           knn_model_joblib := Missing;
           tfidf_matrix_npz := Stored features |}.

End Examples.

(** * Properties *)

(** ** Common blocks found by [find_longest_match] *)

Module DifflibFacts.
Import Difflib Spec.

(** Rewrite the indices of a goal [a !! x = b !! y]. *)
Ltac reindex x' y' :=
  match goal with
  | |- _ !! ?x = _ !! ?y =>
      replace x with x' by lia; replace y with y' by lia
  end.

Section Blocks.
Context (a b : list N) (b2j : gmap N (list nat)).
Context (alo ahi blo bhi : nat).
Hypothesis Hsound : b2j_sound b b2j.
Hypothesis Hwin : window_ok a b (alo, ahi, blo, bhi).

Lemma valid_block_empty : valid_block a b alo ahi blo bhi (alo, blo, 0).
Proof.
  destruct Hwin as (? & ? & ? & ?); simpl in *.
  repeat split; simpl; lia.
Qed.

Lemma j2lenget_block i j j2len :
  alo ≤ i → i < ahi → blo ≤ j → j < bhi →
  a !! i = b !! j →
  j2len_ok a b alo ahi blo bhi i j2len →
  let k := j2lenget j2len j + 1 in
  1 ≤ k ∧ k ≤ i + 1 ∧ k ≤ j + 1
  ∧ valid_block a b alo ahi blo bhi (i + 1 - k, j + 1 - k, k).
Proof.
  intros Hi1 Hi2 Hj1 Hj2 Heq Hok k.
  subst k. destruct j as [|j']; simpl.
  { repeat split; simpl; try lia. intros t Ht. by reindex i 0. }
  destruct (j2len !! j') as [k'|] eqn:Hk'; simpl.
  - destruct (Hok _ _ Hk') as (Hk1 & Hk2 & Hk3 & Hv).
    destruct Hv as (Hv1 & Hv2 & Hv3 & Hv4 & Hv5); simpl in *.
    repeat split; simpl; try lia.
    intros t Ht.
    destruct (decide (t = k')) as [->|Hne].
    + by reindex i (S j').
    + reindex (i - k' + t) (j' + 1 - k' + t). apply Hv5. lia.
  - repeat split; simpl; try lia. intros t Ht. by reindex i (S j').
Qed.

Lemma flm_inner_ok i j2len js newj2len best :
  alo ≤ i → i < ahi →
  (∀ j, j ∈ js → a !! i = b !! j) →
  j2len_ok a b alo ahi blo bhi i j2len →
  j2len_ok a b alo ahi blo bhi (i + 1) newj2len →
  valid_block a b alo ahi blo bhi best →
  let r := flm_inner i blo bhi j2len js newj2len best in
  j2len_ok a b alo ahi blo bhi (i + 1) r.1 ∧ valid_block a b alo ahi blo bhi r.2.
Proof.
  intros Hi1 Hi2. revert newj2len best.
  induction js as [|j js IH]; intros newj2len best Hjs Hold Hnew Hbest; simpl.
  { done. }
  destruct (j <? blo) eqn:Hlo.
  { apply IH; auto. intros; apply Hjs; by right. }
  destruct (bhi <=? j) eqn:Hhi.
  { done. }
  apply Nat.ltb_ge in Hlo. apply Nat.leb_gt in Hhi.
  assert (Heq : a !! i = b !! j) by (apply Hjs; by left).
  destruct (j2lenget_block i j j2len Hi1 Hi2 Hlo Hhi Heq Hold)
    as (Hk1 & Hk2 & Hk3 & Hv).
  apply IH.
  - intros; apply Hjs; by right.
  - done.
  - intros j0 k0 Hl.
    destruct (decide (j = j0)) as [->|Hne].
    + rewrite lookup_insert_eq in Hl. injection Hl as <-.
      split_and!; [lia..|apply Hv].
    + rewrite lookup_insert_ne in Hl by done. by apply Hnew.
  - destruct (best.2 <? j2lenget j2len j + 1); done.
Qed.

Lemma j2len_ok_empty i : j2len_ok a b alo ahi blo bhi i ∅.
Proof. intros j k Hl. by rewrite lookup_empty in Hl. Qed.

Lemma flm_row_ok i st :
  alo ≤ i → i < ahi →
  j2len_ok a b alo ahi blo bhi i st.1 →
  valid_block a b alo ahi blo bhi st.2 →
  let r := flm_row a b2j blo bhi st i in
  j2len_ok a b alo ahi blo bhi (i + 1) r.1 ∧ valid_block a b alo ahi blo bhi r.2.
Proof.
  intros Hi1 Hi2 Hj Hb. unfold flm_row.
  destruct (a !! i) as [elt|] eqn:Ha.
  - apply flm_inner_ok; auto using j2len_ok_empty.
    intros j Hin. destruct (b2j !! elt) as [js|] eqn:Hjs; simpl in Hin.
    + by rewrite (Hsound _ _ _ Hjs Hin).
    + by apply elem_of_nil in Hin.
  - apply lookup_ge_None in Ha.
    destruct Hwin as (? & ? & ? & ?); simpl in *. lia.
Qed.

Lemma flm_rows_ok n i st :
  alo ≤ i → i + n ≤ ahi →
  j2len_ok a b alo ahi blo bhi i st.1 →
  valid_block a b alo ahi blo bhi st.2 →
  valid_block a b alo ahi blo bhi
    (foldl (flm_row a b2j blo bhi) st (seq i n)).2.
Proof.
  revert i st. induction n as [|n IH]; intros i st Hi1 Hi2 Hj Hb; simpl.
  { done. }
  destruct (flm_row_ok i st) as [Hj' Hb']; auto; try lia.
  apply IH; try lia; auto.
  by replace (S i) with (i + 1) by lia.
Qed.

Lemma flm_scan_valid :
  valid_block a b alo ahi blo bhi (flm_scan a b2j alo ahi blo bhi).
Proof.
  unfold flm_scan.
  destruct Hwin as (? & ? & ? & ?); simpl in *.
  apply flm_rows_ok; simpl; auto using j2len_ok_empty, valid_block_empty.
  lia.
Qed.

Lemma elt_eqb_true x y : elt_eqb x y = true → x = y.
Proof.
  destruct x, y; simpl; try done.
  intros H%bool_decide_eq_true. by subst.
Qed.

Lemma extend_left_valid junk besti bestj bestsize :
  valid_block a b alo ahi blo bhi (besti, bestj, bestsize) →
  valid_block a b alo ahi blo bhi
    (extend_left a b junk alo blo besti bestj bestsize).
Proof.
  revert bestj bestsize.
  induction besti as [|i' IH]; intros bestj bestsize Hv; simpl.
  { done. }
  destruct ((alo <? S i') && (blo <? bestj)
            && junk_is junk (b !! (bestj - 1))
            && elt_eqb (a !! i') (b !! (bestj - 1))) eqn:Hc; [|done].
  apply andb_true_iff in Hc as [Hc He].
  apply andb_true_iff in Hc as [Hc _].
  apply andb_true_iff in Hc as [H1%Nat.ltb_lt H2%Nat.ltb_lt].
  apply elt_eqb_true in He.
  apply IH.
  destruct Hv as (Hv1 & Hv2 & Hv3 & Hv4 & Hv5); simpl in *.
  repeat split; simpl; try lia.
  intros t Ht. destruct t as [|t].
  - by reindex i' (bestj - 1).
  - reindex (S i' + t) (bestj + t). apply Hv5. lia.
Qed.

Lemma extend_right_valid junk besti bestj room bestsize :
  besti + bestsize + room ≤ ahi →
  valid_block a b alo ahi blo bhi (besti, bestj, bestsize) →
  valid_block a b alo ahi blo bhi
    (besti, bestj, extend_right a b junk bhi besti bestj room bestsize).
Proof.
  revert bestsize.
  induction room as [|room IH]; intros bestsize Hr Hv; simpl.
  { done. }
  destruct ((bestj + bestsize <? bhi)
            && junk_is junk (b !! (bestj + bestsize))
            && elt_eqb (a !! (besti + bestsize)) (b !! (bestj + bestsize)))
    eqn:Hc; [|done].
  apply andb_true_iff in Hc as [Hc He].
  apply andb_true_iff in Hc as [H1%Nat.ltb_lt _].
  apply elt_eqb_true in He.
  apply IH; [lia|].
  destruct Hv as (Hv1 & Hv2 & Hv3 & Hv4 & Hv5); simpl in *.
  repeat split; simpl; try lia.
  intros t Ht. destruct (decide (t = bestsize)) as [->|Hne]; [done|].
  apply Hv5. lia.
Qed.

Lemma extend_valid junk m :
  valid_block a b alo ahi blo bhi m →
  valid_block a b alo ahi blo bhi (extend a b junk alo ahi blo bhi m).
Proof.
  intros Hv. unfold extend.
  destruct m as [[mi mj] mk]. simpl.
  pose proof (extend_left_valid junk mi mj mk Hv) as Hl.
  destruct (extend_left a b junk alo blo mi mj mk) as [[i j] k].
  apply extend_right_valid; [|done].
  destruct Hl as (? & ? & _); simpl in *. lia.
Qed.

Lemma find_longest_match_valid :
  valid_block a b alo ahi blo bhi
    (find_longest_match a b b2j alo ahi blo bhi).
Proof.
  unfold find_longest_match.
  do 2 apply extend_valid. apply flm_scan_valid.
Qed.

End Blocks.
End DifflibFacts.

(** ** The index [b2j] *)

Module ChainFacts.
Import Difflib Spec.

Lemma elem_of_positions c b i j :
  j ∈ positions c b i ↔ i ≤ j ∧ b !! (j - i) = Some c.
Proof.
  revert i. induction b as [|e b IH]; intros i; simpl.
  { split; [by intros ?%elem_of_nil | by intros [_ ?]]. }
  assert (Hrec : j ∈ positions c b (S i) ↔ S i ≤ j ∧ (e :: b) !! (j - i) = Some c).
  { rewrite IH. split; intros [Hle Hl]; (split; [lia|]).
    - by replace (j - i) with (S (j - S i)) by lia.
    - by replace (j - i) with (S (j - S i)) in Hl by lia. }
  destruct (decide (e = c)) as [->|Hne].
  - rewrite elem_of_cons, Hrec. split.
    + intros [->|[? ?]]; [|split; [lia|done]].
      split; [lia|]. by replace (i - i) with 0 by lia.
    + intros [Hle Hl]. destruct (decide (j = i)) as [|Hji]; [by left|].
      right. split; [lia|done].
  - rewrite Hrec. split.
    + intros [? ?]; split; [lia|done].
    + intros [Hle Hl]. split; [|done].
      destruct (decide (j = i)) as [->|]; [|lia].
      replace (i - i) with 0 in Hl by lia. simpl in Hl. congruence.
Qed.

Lemma positions_sorted c b i :
  StronglySorted lt (positions c b i).
Proof.
  revert i. induction b as [|e b IH]; intros i; simpl.
  { constructor. }
  destruct (decide (e = c)); [|apply IH].
  constructor; [apply IH|].
  apply Forall_forall. intros j Hj%elem_of_positions. lia.
Qed.

Lemma chain_b_enumerate_lookup b i m c :
  chain_b_enumerate b i m !! c =
    match positions c b i with
    | [] => m !! c
    | ps => Some (default [] (m !! c) ++ ps)
    end.
Proof.
  revert i m. induction b as [|e b IH]; intros i m; simpl.
  { done. }
  rewrite IH. unfold setdefault_append.
  destruct (decide (e = c)) as [->|Hne].
  - rewrite lookup_insert_eq. simpl.
    destruct (positions c b (S i)); simpl; [done|].
    by rewrite <- app_assoc.
  - by rewrite lookup_insert_ne.
Qed.

(** What [__chain_b] leaves under a key: all positions of the key in
    [b], in ascending order. *)
Lemma chain_b_lookup_Some b c js :
  chain_b b !! c = Some js → js = positions c b 0 ∧ js ≠ [].
Proof.
  unfold chain_b, purge_popular. intros H.
  apply map_lookup_filter_Some in H as [H _].
  rewrite chain_b_enumerate_lookup, lookup_empty in H.
  destruct (positions c b 0) eqn:Hp; [done|].
  simpl in H. by injection H as <-.
Qed.

Lemma chain_b_sound b : b2j_sound b (chain_b b).
Proof.
  intros c js j [-> _]%chain_b_lookup_Some Hin.
  apply elem_of_positions in Hin as [_ Hl].
  by replace (j - 0) with j in Hl by lia.
Qed.

Lemma chain_b_complete b c js j :
  chain_b b !! c = Some js → b !! j = Some c → j ∈ js.
Proof.
  intros [-> _]%chain_b_lookup_Some Hl.
  apply elem_of_positions. split; [lia|].
  by replace (j - 0) with j by lia.
Qed.

Lemma chain_b_sorted b c js :
  chain_b b !! c = Some js → StronglySorted lt js.
Proof. intros [-> _]%chain_b_lookup_Some. apply positions_sorted. Qed.

End ChainFacts.

(** ** The matching blocks and [ratio] *)

Module BlocksFacts.
Import Difflib Spec DifflibFacts.

Lemma sum_sizes_cons x l : sum_sizes (x :: l) = x.2 + sum_sizes l.
Proof. done. Qed.

Lemma sum_sizes_nil : sum_sizes [] = 0.
Proof. done. Qed.

Lemma sum_sizes_app l1 l2 :
  sum_sizes (l1 ++ l2) = sum_sizes l1 + sum_sizes l2.
Proof.
  induction l1 as [|x l1 IH]; [done|].
  rewrite <- app_comm_cons, !sum_sizes_cons, IH. lia.
Qed.

Lemma sum_sizes_sort_insert x l :
  sum_sizes (sort_insert x l) = x.2 + sum_sizes l.
Proof.
  induction l as [|y l IH]; [done|]. cbn [sort_insert].
  destruct (match_leb x y); [done|].
  rewrite !sum_sizes_cons, IH. lia.
Qed.

Lemma sum_sizes_sort_blocks l : sum_sizes (sort_blocks l) = sum_sizes l.
Proof.
  induction l as [|x l IH]; [done|]. unfold sort_blocks in *.
  cbn [foldr]. by rewrite sum_sizes_sort_insert, sum_sizes_cons, IH.
Qed.

Lemma collapse_sum l cur na :
  (collapse l cur na).1.2 + sum_sizes (collapse l cur na).2
  = cur.2 + sum_sizes na + sum_sizes l.
Proof.
  revert cur na. induction l as [|[[i2 j2] k2] l IH]; intros [[i1 j1] k1] na.
  { cbn [collapse fst snd]. rewrite sum_sizes_nil. lia. }
  rewrite sum_sizes_cons. cbn [collapse fst snd].
  destruct (bool_decide (i1 + k1 = i2) && bool_decide (j1 + k1 = j2)).
  - rewrite (IH (i1, j1, k1 + k2) na). cbn [fst snd]. lia.
  - destruct (bool_decide (k1 = 0)) eqn:Hk.
    + apply bool_decide_eq_true in Hk as ->.
      rewrite (IH (i2, j2, k2) na). cbn [fst snd]. lia.
    + rewrite (IH (i2, j2, k2) (na ++ [(i1, j1, k1)])).
      rewrite sum_sizes_app, sum_sizes_cons, sum_sizes_nil.
      cbn [fst snd]. lia.
Qed.

Lemma sum_sizes_non_adjacent la lb blocks :
  sum_sizes (non_adjacent_blocks la lb blocks) = sum_sizes blocks.
Proof.
  unfold non_adjacent_blocks.
  pose proof (collapse_sum (sort_blocks blocks) (0, 0, 0) []) as H.
  destruct (collapse (sort_blocks blocks) (0, 0, 0) []) as [cur na].
  cbn [fst snd] in H. rewrite sum_sizes_sort_blocks, sum_sizes_nil in H.
  rewrite sum_sizes_app, sum_sizes_cons, sum_sizes_nil. cbn [fst snd].
  destruct (bool_decide (cur.2 = 0)) eqn:Hk.
  - apply bool_decide_eq_true in Hk. lia.
  - rewrite sum_sizes_app, sum_sizes_cons, sum_sizes_nil. lia.
Qed.

Section Loop.
Context (a b : list N) (b2j : gmap N (list nat)).
Hypothesis Hsound : b2j_sound b b2j.

(** The two windows that an iteration may push are windows again. *)
Lemma pushed_windows_ok alo ahi blo bhi i j k :
  window_ok a b (alo, ahi, blo, bhi) →
  valid_block a b alo ahi blo bhi (i, j, k) →
  window_ok a b (alo, i, blo, j) ∧ window_ok a b (i + k, ahi, j + k, bhi).
Proof.
  intros (? & ? & ? & ?) (? & ? & ? & ? & _); simpl in *.
  split; repeat split; simpl; lia.
Qed.

(** The loop of [get_matching_blocks] finishes: each iteration lowers
    [queue_measure]. *)
Lemma mb_loop_total fuel queue blocks :
  Forall (window_ok a b) queue →
  queue_measure queue ≤ fuel →
  is_Some (mb_loop a b b2j fuel queue blocks).
Proof.
  revert queue blocks.
  induction fuel as [|fuel IH]; intros queue blocks Hq Hm.
  { destruct queue as [|[[[alo ahi] blo] bhi] q]; simpl in *; [eauto|lia]. }
  destruct queue as [|[[[alo ahi] blo] bhi] q]; simpl in *; [eauto|].
  apply Forall_cons in Hq as [Hw Hq].
  pose proof (find_longest_match_valid a b b2j alo ahi blo bhi Hsound Hw)
    as Hv.
  destruct (find_longest_match a b b2j alo ahi blo bhi) as [[i j] k].
  destruct (pushed_windows_ok _ _ _ _ _ _ _ Hw Hv) as [HwL HwR].
  destruct Hv as (Hv1 & Hv2 & Hv3 & Hv4 & _); simpl in *.
  destruct (bool_decide (k = 0)) eqn:Hk.
  { apply IH; [done|lia]. }
  apply bool_decide_eq_false in Hk.
  destruct ((alo <? i) && (blo <? j)) eqn:HL;
    destruct ((i + k <? ahi) && (j + k <? bhi)) eqn:HR;
    apply IH; repeat (apply Forall_cons; split); try done; simpl;
    repeat match goal with
           | H : _ && _ = true |- _ =>
               apply andb_true_iff in H as [?%Nat.ltb_lt ?%Nat.ltb_lt]
           end; lia.
Qed.

Lemma slice_split (s : list N) lo mid hi :
  lo ≤ mid → mid ≤ hi → slice s lo hi = slice s lo mid ++ slice s mid hi.
Proof.
  intros H1 H2. unfold slice.
  replace (hi - lo) with ((mid - lo) + (hi - mid)) by lia.
  rewrite <- take_take_drop, drop_drop.
  by replace (lo + (mid - lo)) with mid by lia.
Qed.

Lemma slice_empty (s : list N) lo hi : hi - lo = 0 → slice s lo hi = [].
Proof. intros H. unfold slice. by rewrite H. Qed.

Lemma slice_all (s : list N) : slice s 0 (length s) = s.
Proof. unfold slice. rewrite drop_0. apply take_ge. lia. Qed.

Lemma slice_block alo ahi blo bhi i j k :
  valid_block a b alo ahi blo bhi (i, j, k) →
  slice a i (i + k) = slice b j (j + k).
Proof.
  intros (_ & _ & _ & _ & Heq). simpl in Heq.
  apply list_eq. intros t. unfold slice.
  replace (i + k - i) with k by lia. replace (j + k - j) with k by lia.
  destruct (decide (t < k)) as [Ht|Ht].
  - rewrite !lookup_take_lt, !lookup_drop by done. by apply Heq.
  - by rewrite !lookup_take_ge by lia.
Qed.

(** A window that [find_longest_match] has not split further counts for
    nothing. *)
Lemma contribution_zero r : contribution_ok a b r 0.
Proof.
  split_and!; [lia..|].
  intros H1 H2. by rewrite !slice_empty.
Qed.

(** The left part, the block and the right part of a window add up. *)
Lemma contribution_join alo ahi blo bhi i j k cL cR :
  window_ok a b (alo, ahi, blo, bhi) →
  valid_block a b alo ahi blo bhi (i, j, k) →
  contribution_ok a b (alo, i, blo, j) cL →
  contribution_ok a b (i + k, ahi, j + k, bhi) cR →
  contribution_ok a b (alo, ahi, blo, bhi) (cL + k + cR).
Proof.
  intros Hw Hv (HL1 & HL2 & HL3) (HR1 & HR2 & HR3).
  pose proof (slice_block _ _ _ _ _ _ _ Hv) as Hmid.
  destruct Hv as (Hv1 & Hv2 & Hv3 & Hv4 & _); simpl in *.
  split_and!; simpl; [lia..|].
  intros Ha Hb.
  rewrite (slice_split a alo i ahi), (slice_split a i (i + k) ahi) by lia.
  rewrite (slice_split b blo j bhi), (slice_split b j (j + k) bhi) by lia.
  rewrite HL3, Hmid, HR3 by lia. done.
Qed.

Lemma mb_loop_contributions fuel queue blocks res :
  Forall (window_ok a b) queue →
  mb_loop a b b2j fuel queue blocks = Some res →
  ∃ cs, Forall2 (contribution_ok a b) queue cs
        ∧ sum_sizes res = sum_sizes blocks + sum_list cs.
Proof.
  revert queue blocks.
  induction fuel as [|fuel IH]; intros queue blocks Hq Hres.
  { destruct queue as [|[[[alo ahi] blo] bhi] q]; simpl in *; [|done].
    injection Hres as <-. exists []. split; [constructor|simpl; lia]. }
  destruct queue as [|[[[alo ahi] blo] bhi] q]; simpl in *.
  { injection Hres as <-. exists []. split; [constructor|simpl; lia]. }
  apply Forall_cons in Hq as [Hw Hq].
  pose proof (find_longest_match_valid a b b2j alo ahi blo bhi Hsound Hw)
    as Hv.
  destruct (find_longest_match a b b2j alo ahi blo bhi) as [[i j] k].
  destruct (pushed_windows_ok _ _ _ _ _ _ _ Hw Hv) as [HwL HwR].
  destruct (bool_decide (k = 0)) eqn:Hk.
  { destruct (IH _ _ Hq Hres) as (cs & Hcs & Hsum).
    exists (0 :: cs). split; [|simpl; lia].
    constructor; [|done]. apply contribution_zero. }
  apply bool_decide_eq_false in Hk.
  pose proof contribution_zero as Hnone.
  destruct ((alo <? i) && (blo <? j)) eqn:HL;
    destruct ((i + k <? ahi) && (j + k <? bhi)) eqn:HR;
    (apply IH in Hres; [|repeat (apply Forall_cons; split); done]);
    destruct Hres as (cs & Hcs & Hsum);
    rewrite sum_sizes_app, sum_sizes_cons, sum_sizes_nil in Hsum;
    simpl in Hsum.
  - apply Forall2_cons_inv_l in Hcs as (cR & cs1 & HcR & Hcs & ->).
    apply Forall2_cons_inv_l in Hcs as (cL & cs2 & HcL & Hcs & ->).
    exists (cL + k + cR :: cs2). split; [|simpl in *; lia].
    constructor; [|done]. by eapply contribution_join.
  - apply Forall2_cons_inv_l in Hcs as (cL & cs2 & HcL & Hcs & ->).
    exists (cL + k + 0 :: cs2). split; [|simpl in *; lia].
    constructor; [|done]. by eapply contribution_join.
  - apply Forall2_cons_inv_l in Hcs as (cR & cs1 & HcR & Hcs & ->).
    exists (0 + k + cR :: cs1). split; [|simpl in *; lia].
    constructor; [|done]. by eapply contribution_join.
  - exists (0 + k + 0 :: cs). split; [|simpl in *; lia].
    constructor; [|done]. by eapply contribution_join.
Qed.

Lemma initial_window_ok : window_ok a b (0, length a, 0, length b).
Proof. repeat split; simpl; lia. Qed.

(** [get_matching_blocks] returns: the loop ends within [mb_fuel]. *)
Lemma get_matching_blocks_opt_total :
  is_Some (get_matching_blocks_opt a b b2j).
Proof.
  unfold get_matching_blocks_opt.
  destruct (mb_loop_total (mb_fuel a) [(0, length a, 0, length b)] [])
    as [res Hres].
  - repeat constructor; simpl; lia.
  - unfold mb_fuel. simpl. lia.
  - rewrite Hres. simpl. eauto.
Qed.

(** The matched total [M] of [ratio]. *)
Lemma matches_contribution :
  contribution_ok a b (0, length a, 0, length b)
    (sum_sizes (get_matching_blocks a b b2j)).
Proof.
  unfold get_matching_blocks, get_matching_blocks_opt.
  destruct (mb_loop a b b2j (mb_fuel a) [(0, length a, 0, length b)] [])
    as [res|] eqn:Hres; simpl; [|apply contribution_zero].
  rewrite sum_sizes_non_adjacent.
  apply mb_loop_contributions in Hres as (cs & Hcs & Hsum).
  2:{ repeat constructor; simpl; lia. }
  apply Forall2_cons_inv_l in Hcs as (c & cs' & Hc & Hcs & ->).
  apply Forall2_nil_inv_l in Hcs as ->.
  rewrite sum_sizes_nil in Hsum. simpl in Hsum.
  by replace (sum_sizes res) with c by lia.
Qed.

Lemma matches_le :
  sum_sizes (get_matching_blocks a b b2j) ≤ length a
  ∧ sum_sizes (get_matching_blocks a b b2j) ≤ length b.
Proof.
  destruct matches_contribution as (H1 & H2 & _); simpl in *. lia.
Qed.

Lemma matches_full_eq :
  sum_sizes (get_matching_blocks a b b2j) = length a →
  length a = length b →
  a = b.
Proof.
  intros HM Hlen.
  destruct matches_contribution as (_ & _ & H); simpl in H.
  rewrite <- (slice_all a), <- (slice_all b). apply H; lia.
Qed.

End Loop.

Lemma Zpos_of_nat n : n ≠ 0 → Z.pos (Pos.of_nat n) = Z.of_nat n.
Proof.
  intros Hn. rewrite <- positive_nat_Z. by rewrite Nat2Pos.id.
Qed.

Lemma calculate_ratio_le_1 m la lb :
  m ≤ la → m ≤ lb → (_calculate_ratio m (la + lb) <= 1)%Q.
Proof.
  intros H1 H2. unfold _calculate_ratio.
  case_bool_decide as Hz; [apply Qle_refl|].
  unfold Qle. simpl Qnum. simpl Qden.
  rewrite Zpos_of_nat by done. lia.
Qed.

Lemma calculate_ratio_ge_1 m la lb :
  m ≤ la → m ≤ lb → (1 <= _calculate_ratio m (la + lb))%Q →
  la = lb ∧ m = la.
Proof.
  intros H1 H2. unfold _calculate_ratio.
  case_bool_decide as Hz; [lia|].
  unfold Qle. simpl Qnum. simpl Qden.
  rewrite Zpos_of_nat by done. lia.
Qed.

Lemma calculate_ratio_full n : (_calculate_ratio n (n + n) == 1)%Q.
Proof.
  unfold _calculate_ratio.
  case_bool_decide as Hz; [reflexivity|].
  unfold Qeq. simpl Qnum. simpl Qden.
  rewrite Zpos_of_nat by done. lia.
Qed.

(** With the index that [set_seq2] builds, [get_matching_blocks]
    returns. *)
Lemma get_matching_blocks_total a b :
  ∃ blocks,
    get_matching_blocks_opt a b (chain_b b) = Some blocks
    ∧ get_matching_blocks a b (chain_b b) = blocks.
Proof.
  destruct (get_matching_blocks_opt_total a b (chain_b b)
              (ChainFacts.chain_b_sound b)) as [blocks H].
  exists blocks. split; [done|].
  unfold get_matching_blocks. by rewrite H.
Qed.

(** [ratio] never exceeds [1.0], and reaches it on equal sequences
    only. *)
Lemma ratio_with_le_1 a b b2j :
  b2j_sound b b2j → (ratio_with a b b2j <= 1)%Q.
Proof.
  intros Hs. destruct (matches_le a b b2j Hs).
  by apply calculate_ratio_le_1.
Qed.

Lemma ratio_with_ge_1_eq a b b2j :
  b2j_sound b b2j → (1 <= ratio_with a b b2j)%Q → a = b.
Proof.
  intros Hs H. destruct (matches_le a b b2j Hs) as [H1 H2].
  destruct (calculate_ratio_ge_1 _ _ _ H1 H2 H) as [Hlen HM].
  by apply (matches_full_eq a b b2j Hs).
Qed.

End BlocksFacts.

(** ** A sequence matched against itself *)

Module SelfMatch.
Import Difflib Spec DifflibFacts BlocksFacts ChainFacts.

Section Self.
Context (a : list N) (b2j : gmap N (list nat)).
Hypothesis Hsound : b2j_sound a b2j.
Hypothesis Hcomplete : ∀ c js j, b2j !! c = Some js → a !! j = Some c → j ∈ js.
Hypothesis Hsorted : ∀ c js, b2j !! c = Some js → StronglySorted lt js.

Lemma j2lenget_le i j j2len :
  j2len_below a b2j i j2len →
  j2lenget j2len j ≤ diag_run a b2j j ∧ j2lenget j2len j ≤ diag_run a b2j i.
Proof.
  intros HU. destruct j as [|j']; simpl; [lia|].
  destruct (j2len !! j') as [k|] eqn:Hk; simpl; [|lia].
  destruct (HU _ _ Hk) as [H1 H2]. simpl in H1. lia.
Qed.

Lemma diag_run_S i c :
  a !! i = Some c → is_Some (b2j !! c) →
  diag_run a b2j (S i) = diag_run a b2j i + 1.
Proof. intros Ha Hc. simpl. rewrite Ha. by rewrite decide_True. Qed.

(** The inner loop on row [i] of the self-match, from any point of the
    index list on. *)
Lemma self_inner i c j2len rest newj2len best :
  a !! i = Some c → is_Some (b2j !! c) →
  j2len_below a b2j i j2len →
  j2lenget j2len i = diag_run a b2j i →
  StronglySorted lt rest →
  (∀ j, j ∈ rest → a !! j = Some c) →
  j2len_below a b2j (S i) newj2len →
  best_diag a b2j i best →
  (i ∈ rest ∨
   (newj2len !! i = Some (diag_run a b2j (S i))
    ∧ diag_run a b2j (S i) ≤ best.2 ∧ ∀ j, j ∈ rest → i < j)) →
  self_scan_inv a b2j (S i)
    (flm_inner i 0 (length a) j2len rest newj2len best).
Proof.
  intros Ha Hkey HU HE. revert newj2len best.
  pose proof (diag_run_S i c Ha Hkey) as Hd.
  induction rest as [|j rest IH]; intros newj2len best Hso Hall HU' Hb Hcase.
  { simpl. destruct Hcase as [Hin|(Hl & Hle & _)];
      [by apply elem_of_nil in Hin|].
    split_and!; simpl.
    - done.
    - rewrite Hl. done.
    - destruct Hb as [Hb1 Hb2]. split; [done|].
      intros i' Hi'. destruct (decide (i' = S i)) as [->|]; [lia|].
      apply Hb2. lia. }
  cbn [flm_inner].
  assert (Haj : a !! j = Some c) by (apply Hall; by left).
  assert (Hjn : j < length a) by (by eapply lookup_lt_Some).
  apply StronglySorted_inv in Hso as [Hso Hlt].
  rewrite Forall_forall in Hlt.
  replace (j <? 0) with false by (symmetry; by apply Nat.ltb_ge; lia).
  replace (length a <=? j) with false by (symmetry; apply Nat.leb_gt; lia).
  destruct (j2lenget_le i j j2len HU) as [Hk1 Hk2].
  pose proof (diag_run_S j c Haj Hkey) as Hdj.
  assert (HU'' : j2len_below a b2j (S i) (<[j := j2lenget j2len j + 1]> newj2len)).
  { intros j0 k0 Hl. destruct (decide (j = j0)) as [->|Hne].
    - rewrite lookup_insert_eq in Hl. injection Hl as <-. lia.
    - rewrite lookup_insert_ne in Hl by done. by apply HU'. }
  assert (Hall' : ∀ j0, j0 ∈ rest → a !! j0 = Some c)
    by (intros; apply Hall; by right).
  destruct Hb as [Hb1 Hb2].
  destruct (decide (j = i)) as [->|Hji].
  - (* the diagonal cell *)
    rewrite HE in *. apply IH; [done|done|done| |].
    + destruct (best.2 <? diag_run a b2j i + 1) eqn:Hlt'; [|by split].
      split; [done|]. intros i' Hi'. cbn [snd].
      apply Nat.ltb_lt in Hlt'. specialize (Hb2 i' Hi'). lia.
    + right. rewrite lookup_insert_eq. split_and!.
      * by rewrite Hd.
      * destruct (best.2 <? diag_run a b2j i + 1) eqn:Hlt'; cbn [snd]; [lia|].
        apply Nat.ltb_ge in Hlt'. lia.
      * intros j0 Hj0. by apply Hlt.
  - destruct Hcase as [Hin|(Hl & Hle & Hgt)].
    + (* left of the diagonal: the run of row [j] was seen before *)
      apply elem_of_cons in Hin as [->|Hin]; [done|].
      assert (j < i) by (specialize (Hlt _ Hin); lia).
      assert (Hold : diag_run a b2j (S j) ≤ best.2) by (apply Hb2; lia).
      replace (best.2 <? j2lenget j2len j + 1) with false
        by (symmetry; apply Nat.ltb_ge; lia).
      apply IH; [done|done|done|by split|by left].
    + (* right of the diagonal: the diagonal cell was seen before *)
      assert (i < j) by (apply Hgt; by left).
      replace (best.2 <? j2lenget j2len j + 1) with false
        by (symmetry; apply Nat.ltb_ge; lia).
      apply IH; [done|done|done|by split|].
      right. rewrite lookup_insert_ne by lia. split_and!; [done..|].
      intros j0 Hj0. apply Hgt. by right.
Qed.

Lemma self_row i st :
  i < length a →
  self_scan_inv a b2j i st →
  self_scan_inv a b2j (S i) (flm_row a b2j 0 (length a) st i).
Proof.
  intros Hi (HU & HE & Hb). unfold flm_row.
  destruct (lookup_lt_is_Some_2 a i Hi) as [c Ha]. rewrite Ha.
  destruct (b2j !! c) as [js|] eqn:Hjs; simpl.
  - apply self_inner with (c := c);
      [done|by rewrite Hjs|done|done|by eapply Hsorted| | |done|].
    + intros j Hj. by eapply Hsound.
    + intros j k Hl. by rewrite lookup_empty in Hl.
    + left. by eapply Hcomplete.
  - assert (Hz : diag_run a b2j (S i) = 0).
    { simpl. rewrite Ha, Hjs. rewrite decide_False; [done|].
      by intros [? ?]. }
    split_and!; simpl.
    + intros j k Hl. by rewrite lookup_empty in Hl.
    + by rewrite lookup_empty, Ha, Hjs, decide_False by (by intros [? ?]).
    + destruct Hb as [Hb1 Hb2]. split; [done|].
      intros i' Hi'. destruct (decide (i' = S i)) as [->|]; [lia|].
      apply Hb2. lia.
Qed.

Lemma self_rows n i st :
  i + n ≤ length a →
  self_scan_inv a b2j i st →
  self_scan_inv a b2j (i + n)
    (foldl (flm_row a b2j 0 (length a)) st (seq i n)).
Proof.
  revert i st. induction n as [|n IH]; intros i st Hn Hinv; simpl.
  { by replace (i + 0) with i by lia. }
  replace (i + S n) with (S i + n) by lia.
  apply IH; [lia|]. apply self_row; [lia|done].
Qed.

(** Scanning [a] against itself yields a block on the diagonal. *)
Lemma self_scan_diag :
  let m := flm_scan a b2j 0 (length a) 0 (length a) in m.1.1 = m.1.2.
Proof.
  unfold flm_scan.
  destruct (self_rows (length a - 0) 0 (∅, (0, 0, 0))) as (_ & _ & [H _]).
  - lia.
  - split_and!; simpl.
    + intros j k Hl. by rewrite lookup_empty in Hl.
    + done.
    + split; [done|]. intros i' Hi'. by replace i' with 0 by lia.
  - done.
Qed.

Lemma junk_is_false_self i :
  i < length a → junk_is false (a !! i) = true.
Proof.
  intros Hi. destruct (lookup_lt_is_Some_2 a i Hi) as [c ->]. done.
Qed.

Lemma elt_eqb_refl i : i < length a → elt_eqb (a !! i) (a !! i) = true.
Proof.
  intros Hi. destruct (lookup_lt_is_Some_2 a i Hi) as [c ->]. simpl.
  by apply bool_decide_eq_true.
Qed.

Lemma extend_left_self d k :
  d ≤ length a → extend_left a a false 0 0 d d k = (0, 0, k + d).
Proof.
  revert k. induction d as [|d IH]; intros k Hd; simpl.
  { f_equal. lia. }
  replace (d - 0) with d by lia.
  rewrite junk_is_false_self, elt_eqb_refl by lia. simpl.
  rewrite IH by lia. f_equal. lia.
Qed.

Lemma extend_right_self room k :
  k + room ≤ length a →
  extend_right a a false (length a) 0 0 room k = k + room.
Proof.
  revert k. induction room as [|room IH]; intros k Hk; simpl; [lia|].
  replace (k <? length a) with true by (symmetry; apply Nat.ltb_lt; lia).
  rewrite junk_is_false_self, elt_eqb_refl by lia. simpl.
  rewrite IH by lia. lia.
Qed.

End Self.

(** No element is junk, so the second pair of loops adds nothing. *)
Lemma junk_is_true x : junk_is true x = false.
Proof. by destruct x. Qed.

Lemma extend_junk_id a b alo ahi blo bhi m :
  extend a b true alo ahi blo bhi m = m.
Proof.
  destruct m as [[i j] k]. unfold extend. simpl.
  assert (Hl : extend_left a b true alo blo i j k = (i, j, k)).
  { destruct i; simpl; [done|].
    by rewrite junk_is_true, andb_false_r. }
  rewrite Hl.
  destruct (ahi - (i + k)); simpl; [done|].
  by rewrite junk_is_true, andb_false_r.
Qed.

Lemma find_longest_match_self a :
  find_longest_match a a (chain_b a) 0 (length a) 0 (length a)
  = (0, 0, length a).
Proof.
  unfold find_longest_match. rewrite extend_junk_id.
  pose proof (self_scan_diag a (chain_b a) (chain_b_sound a)
                (chain_b_complete a) (chain_b_sorted a)) as Hdiag.
  pose proof (flm_scan_valid a a (chain_b a) 0 (length a) 0 (length a)
                (chain_b_sound a) (initial_window_ok a a)) as Hv.
  destruct (flm_scan a (chain_b a) 0 (length a) 0 (length a)) as [[i j] k].
  simpl in Hdiag. subst j.
  destruct Hv as (_ & Hv & _); simpl in Hv.
  unfold extend. simpl. rewrite extend_left_self by lia.
  rewrite extend_right_self by lia. f_equal. lia.
Qed.

Lemma mb_loop_self a fuel :
  mb_loop a a (chain_b a) (S fuel) [(0, length a, 0, length a)] []
  = Some (if bool_decide (length a = 0) then [] else [(0, 0, length a)]).
Proof.
  cbn [mb_loop]. rewrite find_longest_match_self.
  case_bool_decide as Hz; [by destruct fuel|].
  rewrite Nat.ltb_irrefl. cbn [andb Nat.add].
  rewrite Nat.ltb_irrefl. cbn [andb]. by destruct fuel.
Qed.

Lemma get_matching_blocks_self a :
  sum_sizes (get_matching_blocks a a (chain_b a)) = length a.
Proof.
  unfold get_matching_blocks, get_matching_blocks_opt, mb_fuel.
  replace (2 * length a + 1) with (S (2 * length a)) by lia.
  rewrite mb_loop_self. cbn [fmap option_fmap option_map default].
  unfold id. rewrite sum_sizes_non_adjacent.
  case_bool_decide as Hz; [by rewrite Hz|].
  by rewrite sum_sizes_cons, sum_sizes_nil, Nat.add_0_r.
Qed.

(** [ratio] of a sequence with itself is [1.0]. *)
Lemma ratio_self a : (ratio a a == 1)%Q.
Proof.
  unfold ratio, ratio_with. rewrite get_matching_blocks_self.
  apply calculate_ratio_full.
Qed.

End SelfMatch.

(** ** [quick_ratio] and [real_quick_ratio] *)

Module QuickFacts.
Import Difflib Spec BlocksFacts.

Lemma occurrences_nonneg c l : (0 ≤ occurrences c l)%Z.
Proof. induction l as [|e l IH]; simpl; [done|]. case_decide; lia. Qed.

Lemma fullbcount_fold b m c :
  default 0%Z
    (foldl (λ (m : gmap N Z) elt, <[elt := (default 0 (m !! elt) + 1)%Z]> m)
       m b !! c)
  = (default 0 (m !! c) + occurrences c b)%Z.
Proof.
  revert m. induction b as [|e b IH]; intros m; simpl; [lia|].
  rewrite IH. destruct (decide (e = c)) as [->|Hne].
  - rewrite lookup_insert_eq. simpl. lia.
  - rewrite lookup_insert_ne by done. lia.
Qed.

Lemma fullbcount_lookup b c :
  default 0%Z (fullbcount b !! c) = occurrences c b.
Proof.
  unfold fullbcount. rewrite fullbcount_fold, lookup_empty. simpl. lia.
Qed.

(** While every element still to come is available, each one counts. *)
Lemma quick_fold fbc rest avail matches :
  (∀ c, (occurrences c rest ≤ available fbc avail c)%Z) →
  (foldl (quick_step fbc) (avail, matches) rest).2 = matches + length rest.
Proof.
  revert avail matches.
  induction rest as [|e rest IH]; intros avail matches Hav; simpl; [lia|].
  unfold quick_step at 2. cbn [fst snd].
  fold (available fbc avail e).
  pose proof (Hav e) as He. simpl in He. rewrite decide_True in He by done.
  pose proof (occurrences_nonneg e rest).
  replace (0 <? available fbc avail e)%Z with true
    by (symmetry; apply Z.ltb_lt; lia).
  rewrite IH; [lia|].
  intros c. unfold available at 1.
  destruct (decide (e = c)) as [->|Hne].
  - rewrite lookup_insert_eq. lia.
  - rewrite lookup_insert_ne by done. fold (available fbc avail c).
    specialize (Hav c). simpl in Hav. rewrite decide_False in Hav by done.
    lia.
Qed.

Lemma quick_matches_self a : quick_matches a a = length a.
Proof.
  unfold quick_matches. rewrite quick_fold; [done|].
  intros c. unfold available. rewrite lookup_empty, fullbcount_lookup. lia.
Qed.

Lemma quick_ratio_self a : (quick_ratio a a == 1)%Q.
Proof.
  unfold quick_ratio. rewrite quick_matches_self.
  apply calculate_ratio_full.
Qed.

Lemma real_quick_ratio_self a : (real_quick_ratio a a == 1)%Q.
Proof.
  unfold real_quick_ratio. rewrite Nat.min_id.
  apply calculate_ratio_full.
Qed.

End QuickFacts.

(** ** [get_close_matches] *)

Module CloseFacts.
Import Difflib CloseMatches Spec BlocksFacts ChainFacts SelfMatch QuickFacts.

Lemma get_close_matches_03 word possibilities :
  get_close_matches word possibilities (3 # 10)
  = Ok (snd <$> nlargest1
          (scan_possibilities (chain_b word) word (3 # 10) possibilities)).
Proof. done. Qed.

Lemma elem_of_scan b2j word cutoff possibilities s x :
  (s, x) ∈ scan_possibilities b2j word cutoff possibilities
  ↔ x ∈ possibilities ∧ good_enough b2j word cutoff x = true
    ∧ s = ratio_with x word b2j.
Proof.
  induction possibilities as [|y rest IH]; simpl.
  { split; [by intros ?%elem_of_nil|]. by intros [?%elem_of_nil _]. }
  destruct (good_enough b2j word cutoff y) eqn:Hy.
  - rewrite !elem_of_cons, IH. split.
    + intros [[= -> ->]|(? & ? & ?)]; auto.
    + intros ([->|?] & ? & ->); auto.
  - rewrite elem_of_cons, IH. split.
    + intros (? & ? & ?); auto.
    + intros ([->|?] & ? & ?); [congruence|auto].
Qed.

Lemma scan_nil_iff b2j word cutoff possibilities :
  scan_possibilities b2j word cutoff possibilities = []
  ↔ ∀ x, x ∈ possibilities → good_enough b2j word cutoff x = false.
Proof.
  induction possibilities as [|y rest IH]; simpl.
  { split; [|done]. by intros _ x ?%elem_of_nil. }
  destruct (good_enough b2j word cutoff y) eqn:Hy.
  - split; [done|]. intros H. specialize (H y). rewrite Hy in H.
    discriminate H. by left.
  - rewrite IH. split.
    + intros H x [->|?]%elem_of_cons; auto.
    + intros H x Hx. apply H. by right.
Qed.

Lemma scored_gtb_le p q : scored_gtb p q = true → (q.1 <= p.1)%Q.
Proof.
  unfold scored_gtb. destruct (p.1 ?= q.1)%Q eqn:Hc; [|done|].
  - intros _. apply Qeq_alt in Hc. rewrite Hc. apply Qle_refl.
  - intros _. apply Qgt_alt in Hc. by apply Qlt_le_weak.
Qed.

(** [max] returns an item of the list, and none has a greater score. *)
Lemma max_from_spec cur l :
  max_from cur l ∈ cur :: l
  ∧ ∀ y, y ∈ cur :: l → (y.1 <= (max_from cur l).1)%Q.
Proof.
  revert cur. induction l as [|x l IH]; intros cur; simpl.
  { split; [by left|]. intros y ->%list_elem_of_singleton. apply Qle_refl. }
  destruct (IH (if scored_gtb x cur then x else cur)) as [Hin Hmax].
  split.
  - destruct (scored_gtb x cur).
    + by right.
    + apply elem_of_cons in Hin as [->|?]; [by left|]. by do 2 right.
  - intros y Hy.
    destruct (scored_gtb x cur) eqn:Hgt.
    + apply elem_of_cons in Hy as [->|Hy]; [|by apply Hmax].
      eapply Qle_trans; [by apply scored_gtb_le|]. apply Hmax. by left.
    + apply elem_of_cons in Hy as [->|Hy]; [apply Hmax; by left|].
      apply elem_of_cons in Hy as [->|Hy]; [|apply Hmax; by right].
      assert (Hle : (x.1 <= cur.1)%Q).
      { unfold scored_gtb in Hgt.
        destruct (x.1 ?= cur.1)%Q eqn:Hc; [| |done].
        - apply Qeq_alt in Hc. rewrite Hc. apply Qle_refl.
        - apply Qlt_alt in Hc. by apply Qlt_le_weak. }
      eapply Qle_trans; [exact Hle|]. apply Hmax. by left.
Qed.

(** The two outcomes of [get_close_matches(word, possibilities, n=1,
    cutoff=0.3)]: no possibility is good enough and the list is empty,
    or the list holds one good-enough possibility of maximal ratio. *)
Lemma get_close_matches_cases word possibilities :
  (get_close_matches word possibilities (3 # 10) = Ok []
   ∧ ∀ x, x ∈ possibilities →
       good_enough (chain_b word) word (3 # 10) x = false)
  ∨ ∃ m,
      get_close_matches word possibilities (3 # 10) = Ok [m]
      ∧ m ∈ possibilities
      ∧ good_enough (chain_b word) word (3 # 10) m = true
      ∧ ∀ x, x ∈ possibilities →
          good_enough (chain_b word) word (3 # 10) x = true →
          (ratio x word <= ratio m word)%Q.
Proof.
  rewrite get_close_matches_03.
  destruct (scan_possibilities (chain_b word) word (3 # 10) possibilities)
    as [|p l] eqn:Hscan.
  { left. split; [done|]. by apply scan_nil_iff. }
  right. destruct (max_from_spec p l) as [Hin Hmax].
  rewrite <- Hscan in Hin, Hmax.
  destruct (max_from p l) as [s m] eqn:Hm.
  apply elem_of_scan in Hin as (Hin & Hgood & ->).
  exists m. simpl. rewrite Hm. split_and!; [done..|].
  intros x Hx Hgx.
  apply (Hmax (ratio_with x word (chain_b word), x)).
  by apply elem_of_scan.
Qed.

Lemma good_enough_ratio b2j word cutoff x :
  good_enough b2j word cutoff x = true → (cutoff <= ratio_with x word b2j)%Q.
Proof.
  unfold good_enough. intros [_ H]%andb_true_iff. by apply Qle_bool_iff.
Qed.

Lemma good_enough_self word :
  good_enough (chain_b word) word (3 # 10) word = true.
Proof.
  unfold good_enough. rewrite !andb_true_iff, !Qle_bool_iff.
  fold (ratio word word).
  rewrite real_quick_ratio_self, quick_ratio_self, ratio_self. done.
Qed.

End CloseFacts.

(** ** The neighbour index *)

Module SklearnFacts.
Import Sklearn Spec.

Lemma insert_by_distance_perm p l : insert_by_distance p l ≡ₚ p :: l.
Proof.
  induction l as [|q l IH]; simpl; [done|].
  destruct (Qle_bool q.1 p.1); [|done].
  rewrite IH. apply Permutation_swap.
Qed.

Lemma insert_by_distance_sorted p l :
  StronglySorted by_distance l →
  StronglySorted by_distance (insert_by_distance p l).
Proof.
  induction l as [|q l IH]; intros Hs; simpl.
  { repeat constructor. }
  apply StronglySorted_inv in Hs as [Hs Hq].
  destruct (Qle_bool q.1 p.1) eqn:Hle.
  - apply Qle_bool_iff in Hle.
    constructor; [by apply IH|].
    rewrite insert_by_distance_perm. by constructor.
  - assert (Hlt : (p.1 < q.1)%Q).
    { apply Qnot_le_lt. intros H%Qle_bool_iff. congruence. }
    constructor; [by constructor|].
    constructor; [by apply Qlt_le_weak|].
    eapply Forall_impl; [exact Hq|].
    intros r Hr. unfold by_distance in *.
    eapply Qle_trans; [by apply Qlt_le_weak|done].
Qed.

Lemma sort_by_distance_from acc l :
  StronglySorted by_distance acc →
  foldl (λ acc p, insert_by_distance p acc) acc l ≡ₚ acc ++ l
  ∧ StronglySorted by_distance
      (foldl (λ acc p, insert_by_distance p acc) acc l).
Proof.
  revert acc. induction l as [|p l IH]; intros acc Hacc; simpl.
  { by rewrite app_nil_r. }
  destruct (IH (insert_by_distance p acc)) as [Hp Hs].
  { by apply insert_by_distance_sorted. }
  split; [|done].
  rewrite Hp, insert_by_distance_perm. simpl. apply Permutation_middle.
Qed.

Lemma sort_by_distance_perm l : sort_by_distance l ≡ₚ l.
Proof.
  unfold sort_by_distance.
  destruct (sort_by_distance_from [] l) as [H _]; [constructor|done].
Qed.

Lemma sort_by_distance_sorted l :
  StronglySorted by_distance (sort_by_distance l).
Proof.
  unfold sort_by_distance.
  destruct (sort_by_distance_from [] l) as [_ H]; [constructor|done].
Qed.

Lemma distances_to_samples knn x :
  (distances_to knn x).*2 = seq 0 (length (fit_X knn)).
Proof.
  unfold distances_to. apply list_eq. intros i.
  rewrite list_lookup_fmap, list_lookup_imap.
  destruct (fit_X knn !! i) as [v|] eqn:Hv; simpl.
  - symmetry. apply lookup_seq. split; [done|].
    by eapply lookup_lt_Some.
  - symmetry. apply lookup_seq_ge. by apply lookup_ge_None.
Qed.

Lemma elem_of_distances_to knn x d p :
  (d, p) ∈ distances_to knn x
  ↔ ∃ v, fit_X knn !! p = Some v ∧ d = metric knn x v.
Proof.
  unfold distances_to. rewrite elem_of_lookup_imap. split.
  - intros (i & v & [= -> ->] & Hv). eauto.
  - intros (v & Hv & ->). eauto.
Qed.

(** What a successful [kneighbors] returns. *)
Lemma kneighbors_Ok knn x ds idxs :
  kneighbors knn x = Ok (ds, idxs) →
  1 ≤ n_neighbors knn ∧ n_neighbors knn ≤ length (fit_X knn)
  ∧ ds = (take (n_neighbors knn)
            (sort_by_distance (distances_to knn x))).*1
  ∧ idxs = (take (n_neighbors knn)
              (sort_by_distance (distances_to knn x))).*2.
Proof.
  unfold kneighbors.
  destruct ((n_neighbors knn =? 0)
            || (length (fit_X knn) <? n_neighbors knn)) eqn:Hc; [done|].
  apply orb_false_iff in Hc as [H0%Nat.eqb_neq Hn%Nat.ltb_ge].
  intros [= <- <-]. split_and!; [lia|lia|done|done].
Qed.


Lemma length_distances_to knn x :
  length (sort_by_distance (distances_to knn x)) = length (fit_X knn).
Proof.
  rewrite sort_by_distance_perm. unfold distances_to.
  by rewrite length_imap.
Qed.

Lemma kneighbors_length knn x ds idxs :
  kneighbors knn x = Ok (ds, idxs) → length idxs = n_neighbors knn.
Proof.
  intros (H1 & H2 & _ & ->)%kneighbors_Ok.
  rewrite length_fmap, length_take_le; [done|].
  by rewrite length_distances_to.
Qed.

Lemma kneighbors_NoDup knn x ds idxs :
  kneighbors knn x = Ok (ds, idxs) → NoDup idxs.
Proof.
  intros (_ & _ & _ & ->)%kneighbors_Ok.
  rewrite fmap_take.
  eapply sublist_NoDup; [|apply sublist_take].
  rewrite sort_by_distance_perm, distances_to_samples.
  apply NoDup_seq.
Qed.

Lemma elem_of_nearest knn x n d p :
  (d, p) ∈ take n (sort_by_distance (distances_to knn x)) →
  ∃ v, fit_X knn !! p = Some v ∧ d = metric knn x v.
Proof.
  intros Hin. apply elem_of_distances_to.
  rewrite <- sort_by_distance_perm.
  eapply elem_of_sublist; [exact Hin|apply sublist_take].
Qed.

Lemma StronglySorted_take {A} (R : relation A) n l :
  StronglySorted R l → StronglySorted R (take n l).
Proof.
  intros H. rewrite <- (take_drop n l) in H.
  by apply StronglySorted_app_1_l in H.
Qed.

Lemma StronglySorted_drop {A} (R : relation A) n l :
  StronglySorted R l → StronglySorted R (drop n l).
Proof.
  intros H. rewrite <- (take_drop n l) in H.
  by apply StronglySorted_app_1_r in H.
Qed.

Lemma StronglySorted_lookup {A} (R : relation A) l i j x y :
  StronglySorted R l → i < j → l !! i = Some x → l !! j = Some y → R x y.
Proof.
  intros Hs. revert i j. induction Hs as [|z l Hs IH Hz]; intros i j Hij Hx Hy.
  { done. }
  destruct j as [|j]; [lia|]. simpl in Hy.
  destruct i as [|i]; simpl in Hx.
  - injection Hx as ->. rewrite Forall_forall in Hz.
    apply Hz. by eapply list_elem_of_lookup_2.
  - eapply IH; [|done..]. lia.
Qed.

(** The sample listed first is a nearest one. *)
Lemma nearest_head knn x d0 p0 rest d p :
  sort_by_distance (distances_to knn x) = (d0, p0) :: rest →
  (d, p) ∈ distances_to knn x → (d0 <= d)%Q.
Proof.
  intros Hsort Hin.
  pose proof (sort_by_distance_sorted (distances_to knn x)) as Hs.
  rewrite <- sort_by_distance_perm, Hsort in Hin.
  rewrite Hsort in Hs. apply StronglySorted_inv in Hs as [_ Hall].
  apply elem_of_cons in Hin as [[= -> ->]|Hin]; [apply Qle_refl|].
  rewrite Forall_forall in Hall. by apply (Hall (d, p)).
Qed.

End SklearnFacts.

(** ** The handlers of [app.py] *)

Module AppFacts.
Import Difflib CloseMatches Sklearn App Spec.
Import BlocksFacts ChainFacts SelfMatch QuickFacts CloseFacts SklearnFacts.

Lemma first_index_from_spec mask i p :
  first_index_from mask i = Ok p →
  i ≤ p ∧ mask !! (p - i) = Some true
  ∧ ∀ q, q < p - i → mask !! q = Some false.
Proof.
  revert i. induction mask as [|[] mask IH]; intros i; simpl; [done| |].
  - intros [= <-]. replace (i - i) with 0 by lia.
    split_and!; [lia|done|]. intros q Hq. lia.
  - intros (Hle & Hl & Hq)%IH. split_and!; [lia| |].
    + by replace (p - i) with (S (p - S i)) by lia.
    + intros [|q] Hlt; [done|]. simpl. apply Hq. lia.
Qed.

Lemma first_index_from_exists mask i :
  true ∈ mask → ∃ p, first_index_from mask i = Ok p.
Proof.
  revert i. induction mask as [|[] mask IH]; intros i Hin; simpl.
  - by apply elem_of_nil in Hin.
  - eauto.
  - apply elem_of_cons in Hin as [?|Hin]; [done|]. by apply IH.
Qed.

Lemma iloc_take_spec movies positions rows :
  iloc_take movies positions = Ok rows →
  rows.*1 = positions ∧ ∀ p row, (p, row) ∈ rows → movies !! p = Some row.
Proof.
  revert rows. induction positions as [|p ps IH]; intros rows; simpl.
  { intros [= <-]. split; [done|]. by intros ?? ?%elem_of_nil. }
  destruct (movies !! p) as [row|] eqn:Hrow; [|done].
  destruct (iloc_take movies ps) as [rows'|] eqn:Hrows; [|done].
  intros [= <-]. destruct (IH _ eq_refl) as [IH1 IH2].
  split; [by rewrite fmap_cons, IH1|].
  intros p' row' [[= -> ->]|Hin]%elem_of_cons; [done|by apply IH2].
Qed.

Section WithLower.
Variable lower : list N → list N.

Lemma title_mask_lookup movies s p :
  title_mask lower movies s !! p
  = (λ row, bool_decide (lower (title row) = s)) <$> movies !! p.
Proof.
  unfold title_mask, lower_titles.
  rewrite !list_lookup_fmap. by destruct (movies !! p).
Qed.

Lemma elem_of_lower_titles movies m :
  m ∈ lower_titles lower movies
  ↔ ∃ row, row ∈ movies ∧ lower (title row) = m.
Proof.
  unfold lower_titles. rewrite list_elem_of_fmap. split.
  - intros (row & -> & Hrow). eauto.
  - intros (row & Hrow & <-). eauto.
Qed.

(** The two outcomes of the fuzzy match: "no match", or the first row
    whose case-folded title is the best-scoring good-enough one. *)
Lemma resolve_cases movie_title movies :
  let word := lower movie_title in
  let good := good_enough (chain_b word) word (3 # 10) in
  (resolve lower movie_title movies = Ok None
   ∧ get_close_matches word (lower_titles lower movies) (3 # 10) = Ok []
   ∧ ∀ row, row ∈ movies → good (lower (title row)) = false)
  ∨ ∃ m idx row,
      resolve lower movie_title movies = Ok (Some (m, idx))
      ∧ get_close_matches word (lower_titles lower movies) (3 # 10)
        = Ok [m]
      ∧ movies !! idx = Some row
      ∧ lower (title row) = m
      ∧ (∀ p r, movies !! p = Some r → lower (title r) = m → idx ≤ p)
      ∧ good m = true
      ∧ ∀ r, r ∈ movies → good (lower (title r)) = true →
          (ratio (lower (title r)) word <= ratio m word)%Q.
Proof.
  intros word good. unfold resolve. fold word.
  destruct (get_close_matches_cases word (lower_titles lower movies))
    as [[Hgcm Hnone]|(m & Hgcm & Hin & Hgood & Hmax)]; rewrite Hgcm.
  { left. split_and!; [done..|]. intros row Hrow. apply Hnone.
    apply elem_of_lower_titles. eauto. }
  right.
  destruct (first_index_from_exists (title_mask lower movies m) 0)
    as [idx Hidx].
  { apply elem_of_lower_titles in Hin as (row & Hrow & Hm).
    apply list_elem_of_lookup in Hrow as [p Hp].
    apply list_elem_of_lookup. exists p.
    rewrite title_mask_lookup, Hp. simpl. by rewrite bool_decide_eq_true_2. }
  rewrite Hidx.
  apply first_index_from_spec in Hidx as (_ & Hl & Hfirst).
  replace (idx - 0) with idx in * by lia.
  rewrite title_mask_lookup in Hl.
  destruct (movies !! idx) as [row|] eqn:Hrow; [|done].
  simpl in Hl. injection Hl as Hl. apply bool_decide_eq_true in Hl.
  exists m, idx, row. split_and!; [done..| |done|].
  - intros p r Hp Hr. destruct (decide (idx ≤ p)) as [|Hlt]; [done|].
    specialize (Hfirst p ltac:(lia)).
    rewrite title_mask_lookup, Hp in Hfirst. simpl in Hfirst.
    injection Hfirst as Hfirst. apply bool_decide_eq_false in Hfirst. done.
  - intros r Hr Hgr. apply Hmax; [|done].
    apply elem_of_lower_titles. eauto.
Qed.

(** [get_recommendations], step by step. *)
Lemma get_recommendations_run movie_title models n w :
  get_recommendations lower movie_title models n w =
  match resolve lower movie_title (movies models) with
  | Raise e => (Raise e, w)
  | Ok None => (Ok (None, None), w)
  | Ok (Some (_, movie_idx)) =>
      match getrow (tfidf_matrix models) movie_idx with
      | Raise e => (Raise e, w)
      | Ok x =>
          let w' := (log_kneighbors x w).2 in
          match kneighbors (knn models) x with
          | Raise e => (Raise e, w')
          | Ok (_, indices) =>
              match iloc_take (movies models) (slice_1_to n indices) with
              | Raise e => (Raise e, w')
              | Ok recommendations =>
                  match iloc (movies models) movie_idx with
                  | Raise e => (Raise e, w')
                  | Ok original =>
                      (Ok (Some recommendations, Some original), w')
                  end
              end
          end
      end
  end.
Proof.
  unfold get_recommendations, mbind, M_bind, bind, lift, mret, M_ret, ret.
  destruct (resolve lower movie_title (movies models))
    as [[[m idx]|]|e]; [|done|done].
  destruct (getrow (tfidf_matrix models) idx) as [x|e]; [|done].
  simpl.
  destruct (kneighbors (knn models) x) as [[ds idxs]|e]; [|done].
  destruct (iloc_take (movies models) (slice_1_to n idxs)) as [recs|e];
    [|done].
  by destruct (iloc (movies models) idx).
Qed.

(** A successful lookup, taken apart. *)
Lemma get_recommendations_Some movie_title models n w recs original w' :
  get_recommendations lower movie_title models n w
  = (Ok (Some recs, original), w') →
  ∃ m idx x ds idxs orig,
    resolve lower movie_title (movies models) = Ok (Some (m, idx))
    ∧ tfidf_matrix models !! idx = Some x
    ∧ kneighbors (knn models) x = Ok (ds, idxs)
    ∧ iloc_take (movies models) (slice_1_to n idxs) = Ok recs
    ∧ movies models !! idx = Some orig
    ∧ original = Some orig
    ∧ w' = (log_kneighbors x w).2.
Proof.
  rewrite get_recommendations_run.
  destruct (resolve lower movie_title (movies models))
    as [[[m idx]|]|e]; [|done|done].
  unfold getrow, iloc.
  destruct (tfidf_matrix models !! idx) as [x|] eqn:Hx; [|done].
  destruct (kneighbors (knn models) x) as [[ds idxs]|e] eqn:Hk; [|done].
  destruct (iloc_take (movies models) (slice_1_to n idxs)) as [recs'|e]
    eqn:Hrecs; [|done].
  destruct (movies models !! idx) as [orig|] eqn:Ho; [|done].
  intros [= <- <- <-]. by exists m, idx, x, ds, idxs, orig.
Qed.

(** A lookup that resolves a row, seen from the resolved row. *)
Lemma get_recommendations_original movie_title models n w recs orig w' :
  get_recommendations lower movie_title models n w
  = (Ok (recs, Some orig), w') →
  ∃ m idx,
    resolve lower movie_title (movies models) = Ok (Some (m, idx))
    ∧ movies models !! idx = Some orig.
Proof.
  rewrite get_recommendations_run.
  destruct (resolve lower movie_title (movies models))
    as [[[m idx]|]|e]; [|done|done].
  unfold getrow, iloc.
  destruct (tfidf_matrix models !! idx) as [x|] eqn:Hx; [|done].
  destruct (kneighbors (knn models) x) as [[ds idxs]|e]; [|done].
  destruct (iloc_take (movies models) (slice_1_to n idxs)) as [recs'|e];
    [|done].
  destruct (movies models !! idx) as [orig'|] eqn:Ho; [|done].
  intros [= <- <- <-]. by exists m, idx.
Qed.

End WithLower.
End AppFacts.

(** ** The claims about the lookup *)

Module Claims.
Import Difflib CloseMatches Sklearn App Spec Examples.
Import BlocksFacts ChainFacts SelfMatch QuickFacts CloseFacts SklearnFacts.
Import AppFacts.

Lemma elem_of_take_1 {A} (x : A) n l : x ∈ take n l → x ∈ l.
Proof. intros H. eapply elem_of_sublist; [exact H|apply sublist_take]. Qed.

Lemma show_run ev w :
  show ev w
  = (Ok tt, {| files := files w; cache := cache w;
               kneighbors_log := kneighbors_log w;
               page := page w ++ [ev] |}).
Proof. done. Qed.

(** The cards of the recommended rows, one [st.markdown] per row. *)
Lemma show_cards_run (recs : list (nat * Movie)) w :
  foldr (λ r k, show (Card r.2);; k) (mret tt) recs w
  = (Ok tt, {| files := files w; cache := cache w;
               kneighbors_log := kneighbors_log w;
               page := page w ++ (Card <$> recs.*2) |}).
Proof.
  revert w. induction recs as [|r recs IH]; intros w; simpl.
  { rewrite app_nil_r. by destruct w. }
  unfold mbind, M_bind, bind. rewrite show_run, IH. simpl.
  by rewrite <- app_assoc.
Qed.

Section WithLower.
Variable lower : list N → list N.

(** The slice [indices[0][1:n+1]] drops the query row when the index
    lists it first: if the first neighbour of the feature vector of the
    resolved row [idx] is [idx] itself, the returned rows do not contain
    row [idx]. *)
Lemma recommendations_exclude_query
    movie_title models n w recs orig w' m idx x ds rest :
  get_recommendations lower movie_title models n w
  = (Ok (Some recs, Some orig), w') →
  resolve lower movie_title (movies models) = Ok (Some (m, idx)) →
  tfidf_matrix models !! idx = Some x →
  kneighbors (knn models) x = Ok (ds, idx :: rest) →
  idx ∉ recs.*1.
Proof.
  intros Hrun Hres Hx Hk.
  apply get_recommendations_Some
    in Hrun as (m' & idx' & x' & ds' & idxs & o & Hres' & Hx' & Hk' & Hrecs & _).
  rewrite Hres in Hres'. injection Hres' as <- <-.
  rewrite Hx in Hx'. injection Hx' as <-.
  rewrite Hk in Hk'. injection Hk' as <- <-.
  apply iloc_take_spec in Hrecs as [-> _].
  apply kneighbors_NoDup in Hk. apply NoDup_cons in Hk as [Hnot _].
  unfold slice_1_to. simpl. rewrite drop_0.
  intros Hin%elem_of_take_1. done.
Qed.

(** The first neighbour is the query row whenever every other fitted
    sample lies strictly farther from the query vector. *)
Lemma nearest_is_self knn x idx v ds idxs :
  fit_X knn !! idx = Some v →
  (∀ j u, j ≠ idx → fit_X knn !! j = Some u →
          (metric knn x v < metric knn x u)%Q) →
  kneighbors knn x = Ok (ds, idxs) →
  ∃ rest, idxs = idx :: rest.
Proof.
  intros Hv Hfar (HK1 & HK2 & _ & ->)%kneighbors_Ok.
  destruct (sort_by_distance (distances_to knn x)) as [|[d0 p0] l] eqn:Hs.
  { pose proof (length_distances_to knn x) as Hlen.
    rewrite Hs in Hlen. simpl in Hlen. lia. }
  destruct (n_neighbors knn) as [|k]; [lia|]. simpl.
  exists (take k l).*2. f_equal.
  destruct (decide (p0 = idx)) as [|Hne]; [done|].
  assert (Hin0 : (d0, p0) ∈ distances_to knn x).
  { rewrite <- sort_by_distance_perm, Hs. by left. }
  apply elem_of_distances_to in Hin0 as (u & Hu & ->).
  assert (Hle : (metric knn x u <= metric knn x v)%Q).
  { eapply nearest_head; [exact Hs|].
    apply elem_of_distances_to. eauto. }
  specialize (Hfar p0 u Hne Hu).
  exfalso. by eapply Qlt_not_le.
Qed.

(** C2, as amended: a lookup that resolves a row returns exactly
    [min(n, k - 1)] rows, where [k] is the number of neighbours the
    loaded index was configured with; it returns fewer than [n] rows
    exactly when [k < n + 1]. *)
Theorem recommendations_length movie_title models n w recs orig w' :
  get_recommendations lower movie_title models n w
  = (Ok (Some recs, orig), w') →
  length recs = n `min` (n_neighbors (knn models) - 1)
  ∧ (length recs < n ↔ n_neighbors (knn models) < n + 1).
Proof.
  intros Hrun.
  apply get_recommendations_Some
    in Hrun as (m & idx & x & ds & idxs & o & _ & _ & Hk & Hrecs & _).
  apply iloc_take_spec in Hrecs as [Hrecs _].
  pose proof (kneighbors_Ok _ _ _ _ Hk) as (Hk1 & _).
  apply kneighbors_length in Hk.
  assert (Hlen : length recs = n `min` (n_neighbors (knn models) - 1)).
  { rewrite <- (length_fmap fst), Hrecs. unfold slice_1_to.
    rewrite length_take, length_drop. lia. }
  split; [done|lia].
Qed.

(** An index that holds fewer samples than it was configured to return
    makes the lookup raise. *)
Lemma recommendations_small_index movie_title models n w m idx x :
  resolve lower movie_title (movies models) = Ok (Some (m, idx)) →
  tfidf_matrix models !! idx = Some x →
  length (fit_X (knn models)) < n_neighbors (knn models) →
  (get_recommendations lower movie_title models n w).1 = Raise ValueError.
Proof.
  intros Hres Hx Hlt. rewrite get_recommendations_run, Hres.
  unfold getrow. rewrite Hx. unfold kneighbors.
  replace (length (fit_X (knn models)) <? n_neighbors (knn models))
    with true by (symmetry; by apply Nat.ltb_lt).
  by rewrite orb_true_r.
Qed.

(** C3: the rows that [get_recommendations] returns are in order of
    non-decreasing distance between the feature vector of the resolved
    row and the fitted samples of the returned rows. *)
Theorem recommendations_by_distance movie_title models n w recs orig w' :
  get_recommendations lower movie_title models n w
  = (Ok (Some recs, Some orig), w') →
  ∃ idx x,
    movies models !! idx = Some orig
    ∧ tfidf_matrix models !! idx = Some x
    ∧ ∀ i j p q vp vq,
        i ≤ j →
        recs.*1 !! i = Some p → recs.*1 !! j = Some q →
        fit_X (knn models) !! p = Some vp →
        fit_X (knn models) !! q = Some vq →
        (metric (knn models) x vp <= metric (knn models) x vq)%Q.
Proof.
  intros Hrun.
  apply get_recommendations_Some
    in Hrun as (m & idx & x & ds & idxs & o & _ & Hx & Hk & Hrecs & Ho & Heq & _).
  injection Heq as ->.
  exists idx, x. split_and!; [done..|].
  apply iloc_take_spec in Hrecs as [-> _].
  apply kneighbors_Ok in Hk as (_ & _ & _ & ->).
  set (near := take (n_neighbors (knn models))
                 (sort_by_distance (distances_to (knn models) x))).
  unfold slice_1_to. rewrite <- fmap_drop, <- fmap_take.
  assert (Hsorted : StronglySorted by_distance (take n (drop 1 near))).
  { apply StronglySorted_take, StronglySorted_drop, StronglySorted_take.
    apply sort_by_distance_sorted. }
  assert (Hdist : ∀ d p v,
    (d, p) ∈ take n (drop 1 near) → fit_X (knn models) !! p = Some v →
    d = metric (knn models) x v).
  { intros d p v Hin Hv.
    assert (Hin' : (d, p) ∈ near).
    { eapply elem_of_sublist; [exact Hin|].
      etrans; [apply sublist_take|apply sublist_drop]. }
    apply elem_of_nearest in Hin' as (v' & Hv' & ->). congruence. }
  intros i j p q vp vq Hij Hp Hq Hvp Hvq.
  rewrite list_lookup_fmap in Hp, Hq.
  destruct (take n (drop 1 near) !! i) as [[dp p']|] eqn:Hi; [|done].
  destruct (take n (drop 1 near) !! j) as [[dq q']|] eqn:Hj; [|done].
  simpl in Hp, Hq. injection Hp as ->. injection Hq as ->.
  assert (Hdp : dp = metric (knn models) x vp)
    by (apply (Hdist dp p vp); [by eapply list_elem_of_lookup_2|done]).
  assert (Hdq : dq = metric (knn models) x vq)
    by (apply (Hdist dq q vq); [by eapply list_elem_of_lookup_2|done]).
  rewrite <- Hdp, <- Hdq.
  destruct (decide (i = j)) as [->|Hne].
  - rewrite Hi in Hj. injection Hj as -> _. apply Qle_refl.
  - apply (StronglySorted_lookup by_distance (take n (drop 1 near))
             i j (dp, p) (dq, q)); [done|lia|done|done].
Qed.

(** C4: a row is resolved only if its case-folded title has a ratio of
    at least 0.3 to the case-folded input, and when no title reaches
    0.3 the lookup returns "no match". *)
Theorem matcher_threshold movie_title models :
  (∀ n w recs orig w',
     get_recommendations lower movie_title models n w
     = (Ok (recs, Some orig), w') →
     (3 # 10 <= ratio (lower (title orig)) (lower movie_title))%Q)
  ∧ ((∀ row, row ∈ movies models →
        ¬ (3 # 10 <= ratio (lower (title row)) (lower movie_title))%Q) →
     ∀ n w,
       get_recommendations lower movie_title models n w
       = (Ok (None, None), w)).
Proof.
  split.
  - intros n w recs orig w' Hrun.
    apply get_recommendations_original in Hrun as (m & idx & Hres & Ho).
    destruct (resolve_cases lower movie_title (movies models))
      as [(Hnone & _)|(m' & idx' & row & Hres' & _ & Hrow & Hm & _ & Hgood & _)];
      [congruence|].
    rewrite Hres in Hres'. injection Hres' as <- <-.
    rewrite Ho in Hrow. injection Hrow as <-.
    rewrite Hm. by apply good_enough_ratio in Hgood.
  - intros Hlow n w. rewrite get_recommendations_run.
    destruct (resolve_cases lower movie_title (movies models))
      as [(-> & _)|(m & idx & row & _ & _ & Hrow & Hm & _ & Hgood & _)];
      [done|].
    exfalso. apply (Hlow row); [by eapply list_elem_of_lookup_2|].
    rewrite Hm. by apply good_enough_ratio in Hgood.
Qed.

(** C5: the resolved row is the first row of the catalog whose
    case-folded title equals the string that [get_close_matches]
    returned. *)
Theorem matcher_first_occurrence movie_title models n w recs orig w' :
  get_recommendations lower movie_title models n w
  = (Ok (recs, Some orig), w') →
  ∃ m idx,
    get_close_matches (lower movie_title)
      (lower_titles lower (movies models)) (3 # 10) = Ok [m]
    ∧ movies models !! idx = Some orig
    ∧ lower (title orig) = m
    ∧ ∀ p row, movies models !! p = Some row →
               lower (title row) = m → idx ≤ p.
Proof.
  intros Hrun.
  apply get_recommendations_original in Hrun as (m & idx & Hres & Ho).
  destruct (resolve_cases lower movie_title (movies models))
    as [(Hnone & _)|(m' & idx' & row & Hres' & Hgcm & Hrow & Hm & Hfirst & _)];
    [congruence|].
  rewrite Hres in Hres'. injection Hres' as <- <-.
  rewrite Ho in Hrow. injection Hrow as <-.
  by exists m, idx.
Qed.



(** [load_models] looks at the files and the cache only. *)
Lemma load_models_page w evs :
  load_models {| files := files w; cache := cache w;
                 kneighbors_log := kneighbors_log w;
                 page := page w ++ evs |}
  = ((load_models w).1,
     {| files := files w; cache := cache (load_models w).2;
        kneighbors_log := kneighbors_log w;
        page := page w ++ evs |}).
Proof.
  unfold load_models. simpl.
  destruct (cache w) eqn:Hc; simpl; [by rewrite Hc|].
  destruct (read_models (files w)); simpl; [done|by rewrite Hc].
Qed.

(** C8: for a non-empty input without a match, [main] never queries
    the neighbour index and shows the "Movie not found" error. *)
Theorem not_found_outcome movie_title models w :
  movie_title ≠ [] →
  (load_models w).1 = Ok models →
  get_close_matches (lower movie_title)
    (lower_titles lower (movies models)) (3 # 10) = Ok [] →
  ∃ w',
    main lower movie_title true w = (Ok tt, w')
    ∧ kneighbors_log w' = kneighbors_log w
    ∧ page w'
      = page w ++ [Markdown "<style>"; Markdown "header";
                   Error not_found_msg; Markdown "footer"].
Proof.
  intros Hne Hload Hgcm.
  unfold main, mbind, M_bind, bind. rewrite !show_run. simpl.
  rewrite <- app_assoc. simpl.
  rewrite (load_models_page w [Markdown "<style>"; Markdown "header"]).
  rewrite Hload. rewrite bool_decide_eq_true_2 by done.
  rewrite get_recommendations_run. unfold resolve. rewrite Hgcm.
  unfold render. rewrite show_run. simpl. rewrite show_run. simpl.
  eexists. split; [reflexivity|]. simpl.
  split; [done|]. by rewrite <- !app_assoc.
Qed.

(** C9, as amended: with an empty cache, [load_models] fails exactly
    when one of the three files is missing or malformed (the sizes of
    the loaded artifacts are not compared), and then every run of
    [main] fails with the same exception and caches nothing. *)
Theorem load_models_fails_iff w :
  cache w = None →
  ((∃ e, (load_models w).1 = Raise e)
   ↔ unreadable (movies_joblib (files w))
     ∨ unreadable (knn_model_joblib (files w))
     ∨ unreadable (tfidf_matrix_npz (files w)))
  ∧ ∀ e, (load_models w).1 = Raise e →
      ∀ movie_title clicked,
        (main lower movie_title clicked w).1 = Raise e
        ∧ cache (main lower movie_title clicked w).2 = None.
Proof.
  intros Hc. split.
  - unfold load_models, read_models, load. rewrite Hc.
    destruct (movies_joblib (files w)), (knn_model_joblib (files w)),
      (tfidf_matrix_npz (files w)); simpl;
      (split; [intros [e He]; try done; tauto
              |intros H; try (by eexists); tauto]).
  - intros e He movie_title clicked.
    unfold main, mbind, M_bind, bind. rewrite !show_run. simpl.
    rewrite <- app_assoc. simpl.
    rewrite (load_models_page w [Markdown "<style>"; Markdown "header"]).
    rewrite He. simpl. split; [done|].
    unfold load_models in *. rewrite Hc in *.
    by destruct (read_models (files w)).
Qed.

(** C10: without a match [get_recommendations] returns [(None, None)],
    and the branch of [main] on that pair looks at its first component
    only: [None] gives the "Movie not found" error whatever the second
    component is, and a frame never gives an error message. *)
Theorem no_match_pair movie_title models :
  (get_close_matches (lower movie_title)
     (lower_titles lower (movies models)) (3 # 10) = Ok [] →
   ∀ n w,
     get_recommendations lower movie_title models n w
     = (Ok (None, None), w))
  ∧ (∀ original w,
       render None original w = show (Error not_found_msg) w)
  ∧ (∀ recs original w,
       ∃ evs,
         page (render (Some recs) original w).2 = page w ++ evs
         ∧ ∀ msg, Error msg ∉ evs).
Proof.
  split_and!.
  - intros Hgcm n w. rewrite get_recommendations_run.
    unfold resolve. by rewrite Hgcm.
  - done.
  - intros recs [o|] w; simpl.
    + unfold show_charts, mbind, M_bind, bind.
      rewrite !show_run. simpl. rewrite show_cards_run. simpl.
      rewrite <- !app_assoc. eexists. split; [reflexivity|].
      intros msg Hin. simpl in Hin.
      repeat (apply elem_of_cons in Hin as [Hin|Hin]; [done|]).
      apply elem_of_app in Hin as [Hin|Hin].
      * apply list_elem_of_fmap in Hin as (r & Hr & _). done.
      * repeat (apply elem_of_cons in Hin as [Hin|Hin]; [done|]).
        by apply elem_of_nil in Hin.
    + exists []. rewrite app_nil_r. split; [done|].
      by intros msg ?%elem_of_nil.
Qed.

End WithLower.
(** *** The claims on the sample catalog *)

Example recommendations_exclude_query_alien :
  0 ∉ [(1, aliens); (2, heat_1986)].*1.
Proof.
  eapply (recommendations_exclude_query ascii_lower (py_str "Alien") store 5
            loaded [(1, aliens); (2, heat_1986)] alien _
            (py_str "alien") 0 [1; 0]%Q _ [1; 2]);
    vm_compute; reflexivity.
Qed.

(** C1 does not hold of the code: "Aliens" resolves to row 1, whose
    feature vector equals that of row 0; the index lists row 0 first,
    the slice drops it, and row 1 itself is among the rows returned. *)
Theorem recommendations_include_query :
  resolve ascii_lower (py_str "Aliens") (movies store)
  = Ok (Some (py_str "aliens", 1))
  ∧ tfidf_matrix store !! 0 = tfidf_matrix store !! 1
  ∧ (get_recommendations ascii_lower (py_str "Aliens") store 5 loaded).1
    = Ok (Some [(1, aliens); (2, heat_1986)], Some aliens)
  ∧ 1 ∈ [(1, aliens); (2, heat_1986)].*1.
Proof.
  split_and!; [vm_compute; reflexivity..|]. simpl. by left.
Qed.

Lemma recommendations_length_witness :
  length [(1, aliens); (2, heat_1986)]
  = 5 `min` (n_neighbors (knn store) - 1)
  ∧ (length [(1, aliens); (2, heat_1986)] < 5
     ↔ n_neighbors (knn store) < 5 + 1).
Proof.
  eapply (recommendations_length ascii_lower (py_str "Alien") store 5
            loaded [(1, aliens); (2, heat_1986)] (Some alien) _).
  vm_compute. reflexivity.
Defined.

(** C2 fails as stated: the catalog has 5 rows and [n = 5], but the
    index was configured with 3 neighbours and 2 rows are returned. *)
Lemma recommendations_length_counterexample :
  (get_recommendations ascii_lower (py_str "Alien") store 5 loaded).1
  = Ok (Some [(1, aliens); (2, heat_1986)], Some alien)
  ∧ length [(1, aliens); (2, heat_1986)]
    ≠ 5 `min` (length (movies store) - 1).
Proof. split; [vm_compute; reflexivity|]. vm_compute. lia. Qed.

Lemma recommendations_by_distance_witness :
  ∃ idx x,
    movies store !! idx = Some alien
    ∧ tfidf_matrix store !! idx = Some x
    ∧ ∀ i j p q vp vq,
        i ≤ j →
        [(1, aliens); (2, heat_1986)].*1 !! i = Some p →
        [(1, aliens); (2, heat_1986)].*1 !! j = Some q →
        fit_X (knn store) !! p = Some vp →
        fit_X (knn store) !! q = Some vq →
        (metric (knn store) x vp <= metric (knn store) x vq)%Q.
Proof.
  eapply (recommendations_by_distance ascii_lower (py_str "Alien") store 5
            loaded [(1, aliens); (2, heat_1986)] alien _).
  vm_compute. reflexivity.
Defined.

Lemma matcher_threshold_witness :
  (3 # 10 <= ratio (ascii_lower (title dark_knight))
               (ascii_lower (py_str "dark knight")))%Q
  ∧ get_recommendations ascii_lower (py_str "zzzxxxqqq") store 5 loaded
    = (Ok (None, None), loaded).
Proof.
  destruct (matcher_threshold ascii_lower (py_str "dark knight") store)
    as [Hsome _].
  destruct (matcher_threshold ascii_lower (py_str "zzzxxxqqq") store)
    as [_ Hnone].
  split.
  - eapply (Hsome 2 loaded). vm_compute. reflexivity.
  - apply Hnone. intros row Hrow. rewrite <- Qle_bool_iff.
    repeat (apply elem_of_cons in Hrow as [->|Hrow];
            [vm_compute; by intros [=]|]).
    by apply elem_of_nil in Hrow.
Defined.

Lemma matcher_first_occurrence_witness :
  ∃ m idx,
    get_close_matches (ascii_lower (py_str "heat"))
      (lower_titles ascii_lower (movies store)) (3 # 10) = Ok [m]
    ∧ movies store !! idx = Some heat_1986
    ∧ ascii_lower (title heat_1986) = m
    ∧ ∀ p row, movies store !! p = Some row →
               ascii_lower (title row) = m → idx ≤ p.
Proof.
  eapply (matcher_first_occurrence ascii_lower (py_str "heat") store 1
            loaded _ heat_1986 _).
  vm_compute. reflexivity.
Defined.



Lemma not_found_outcome_witness :
  ∃ w',
    main ascii_lower (py_str "zzzxxxqqq") true loaded = (Ok tt, w')
    ∧ kneighbors_log w' = kneighbors_log loaded
    ∧ page w'
      = page loaded ++ [Markdown "<style>"; Markdown "header";
                        Error not_found_msg; Markdown "footer"].
Proof.
  apply (not_found_outcome ascii_lower (py_str "zzzxxxqqq") store loaded).
  - vm_compute. by intros [=].
  - reflexivity.
  - vm_compute. reflexivity.
Defined.

Lemma load_models_fails_iff_witness :
  ((∃ e, (load_models no_index).1 = Raise e)
   ↔ unreadable (movies_joblib (files no_index))
     ∨ unreadable (knn_model_joblib (files no_index))
     ∨ unreadable (tfidf_matrix_npz (files no_index)))
  ∧ ∀ e, (load_models no_index).1 = Raise e →
      ∀ movie_title clicked,
        (main ascii_lower movie_title clicked no_index).1 = Raise e
        ∧ cache (main ascii_lower movie_title clicked no_index).2 = None.
Proof.
  apply (load_models_fails_iff ascii_lower no_index). reflexivity.
Defined.

(** C9 fails as stated: three artifacts of different sizes load, and
    the process goes on to serve a request. *)
Lemma load_models_fails_iff_counterexample :
  length (movies mismatched_store) = 5
  ∧ length (tfidf_matrix mismatched_store) = 4
  ∧ length (fit_X (knn mismatched_store)) = 3
  ∧ (load_models (fresh (disk_of mismatched_store))).1
    = Ok mismatched_store
  ∧ (main ascii_lower (py_str "Alien") true
       (fresh (disk_of mismatched_store))).1 = Ok tt.
Proof. split_and!; vm_compute; reflexivity. Qed.

Lemma no_match_pair_witness :
  get_recommendations ascii_lower (py_str "zzzxxxqqq") store 5 loaded
  = (Ok (None, None), loaded)
  ∧ render None (Some alien) loaded = show (Error not_found_msg) loaded.
Proof.
  destruct (no_match_pair ascii_lower (py_str "zzzxxxqqq") store)
    as (Hpair & Hnone & _).
  split; [|apply Hnone].
  apply Hpair. vm_compute. reflexivity.
Defined.

End Claims.

(** ** The cheap ratios bound [ratio] *)

Module BoundFacts.
Import Difflib CloseMatches Spec.
Import DifflibFacts BlocksFacts ChainFacts SelfMatch QuickFacts CloseFacts.

Lemma occurrences_perm c s s' :
  s ≡ₚ s' → occurrences c s = occurrences c s'.
Proof.
  induction 1 as [|x l l' _ IH|x y l|l1 l2 l3 _ IH1 _ IH2]; simpl;
    [done|rewrite IH; lia|lia|congruence].
Qed.

Lemma occurrences_not_elem c s : c ∉ s → occurrences c s = 0%Z.
Proof.
  induction s as [|e s IH]; simpl; [done|].
  intros Hn. apply not_elem_of_cons in Hn as [Hne Hn].
  rewrite decide_False by done. rewrite IH by done. lia.
Qed.

Lemma occurrences_sublist c s l :
  s `sublist_of` l → (occurrences c s ≤ occurrences c l)%Z.
Proof.
  induction 1 as [|x l1 l2 _ IH|x l1 l2 _ IH]; simpl; [lia|lia|].
  case_decide; lia.
Qed.

Lemma quick_fold_mono fbc a avail matches :
  matches ≤ (foldl (quick_step fbc) (avail, matches) a).2.
Proof.
  revert avail matches. induction a as [|e a IH]; intros avail matches;
    simpl; [lia|].
  unfold quick_step at 2. cbn [fst snd].
  etrans; [|apply IH]. destruct (0 <? _)%Z; lia.
Qed.

(** Every multiset that fits into [a] and into what is still available
    of [b] is counted. *)
Lemma quick_fold_ge fbc a avail matches s :
  s ⊆+ a →
  (∀ c, (occurrences c s ≤ 0 `max` available fbc avail c)%Z) →
  matches + length s ≤ (foldl (quick_step fbc) (avail, matches) a).2.
Proof.
  revert avail matches s.
  induction a as [|e a IH]; intros avail matches s Hs Hav.
  { apply submseteq_nil_r in Hs as ->. simpl. lia. }
  simpl. unfold quick_step at 2. cbn [fst snd].
  fold (available fbc avail e).
  assert (Hstep : ∀ c, c ≠ e →
    available fbc (<[e := (available fbc avail e - 1)%Z]> avail) c
    = available fbc avail c).
  { intros c Hc. unfold available at 1.
    by rewrite lookup_insert_ne by done. }
  assert (Hself :
    available fbc (<[e := (available fbc avail e - 1)%Z]> avail) e
    = (available fbc avail e - 1)%Z).
  { unfold available at 1. by rewrite lookup_insert_eq. }
  destruct (decide (e ∈ s)) as [Hin|Hnin].
  - apply elem_of_Permutation in Hin as [s' Hperm].
    assert (Hs' : s' ⊆+ a).
    { rewrite Hperm in Hs. by apply (submseteq_app_inv_l _ _ [e]). }
    pose proof (Hav e) as He.
    rewrite (occurrences_perm e _ _ Hperm) in He. simpl in He.
    rewrite decide_True in He by done.
    pose proof (occurrences_nonneg e s').
    replace (0 <? available fbc avail e)%Z with true
      by (symmetry; apply Z.ltb_lt; lia).
    rewrite (Permutation_length Hperm). simpl.
    etrans; [|apply (IH _ _ s' Hs')].
    + lia.
    + intros c. destruct (decide (c = e)) as [->|Hne].
      * rewrite Hself. lia.
      * rewrite Hstep by done. specialize (Hav c).
        rewrite (occurrences_perm c _ _ Hperm) in Hav. simpl in Hav.
        rewrite decide_False in Hav by done. lia.
  - assert (Hs' : s ⊆+ a).
    { apply submseteq_cons_r in Hs as [Hs|(l' & Hperm & _)]; [done|].
      exfalso. apply Hnin. rewrite Hperm. by left. }
    etrans; [|apply (IH _ _ s Hs')].
    + destruct (0 <? _)%Z; lia.
    + intros c. destruct (decide (c = e)) as [->|Hne].
      * rewrite occurrences_not_elem by done. lia.
      * rewrite Hstep by done. apply Hav.
Qed.

(** [quick_ratio] counts at least every common subsequence. *)
Lemma quick_matches_ge a b s :
  s `sublist_of` a → s `sublist_of` b → length s ≤ quick_matches a b.
Proof.
  intros Ha Hb. unfold quick_matches.
  apply (quick_fold_ge (fullbcount b) a ∅ 0 s).
  - by apply sublist_submseteq.
  - intros c. unfold available.
    rewrite lookup_empty, fullbcount_lookup.
    pose proof (occurrences_sublist c s b Hb). lia.
Qed.

(** [quick_ratio] counts no more than the shorter sequence holds. *)
Lemma quick_fold_le fbc a avail matches :
  (foldl (quick_step fbc) (avail, matches) a).2 ≤ matches + length a.
Proof.
  revert avail matches. induction a as [|e a IH]; intros avail matches;
    simpl; [lia|].
  unfold quick_step at 2. cbn [fst snd].
  etrans; [apply IH|]. destruct (0 <? _)%Z; lia.
Qed.

Section Loop.
Context (a b : list N) (b2j : gmap N (list nat)).
Hypothesis Hsound : b2j_sound b b2j.

Lemma slice_length (s : list N) lo hi :
  hi ≤ length s → length (slice s lo hi) = hi - lo.
Proof.
  intros H. unfold slice. rewrite length_take, length_drop. lia.
Qed.

Lemma common_nil r : common_ok a b r [].
Proof. split; apply sublist_nil_l. Qed.

Lemma common_join alo ahi blo bhi i j k sL sR :
  window_ok a b (alo, ahi, blo, bhi) →
  valid_block a b alo ahi blo bhi (i, j, k) →
  common_ok a b (alo, i, blo, j) sL →
  common_ok a b (i + k, ahi, j + k, bhi) sR →
  common_ok a b (alo, ahi, blo, bhi) (sL ++ slice a i (i + k) ++ sR)
  ∧ length (slice a i (i + k)) = k.
Proof.
  intros Hw Hv [HLa HLb] [HRa HRb].
  pose proof (slice_block a b _ _ _ _ _ _ _ Hv) as Hmid.
  destruct Hw as (Hw1 & Hw2 & Hw3 & Hw4).
  destruct Hv as (Hv1 & Hv2 & Hv3 & Hv4 & _); simpl in *.
  split; [split; simpl|].
  - rewrite (slice_split a alo i ahi), (slice_split a i (i + k) ahi)
      by lia.
    by repeat apply sublist_app.
  - rewrite (slice_split b blo j bhi), (slice_split b j (j + k) bhi)
      by lia.
    rewrite Hmid. by repeat apply sublist_app.
  - rewrite slice_length by lia. lia.
Qed.

(** The blocks found inside the windows of the queue spell out common
    subsequences of these windows. *)
Lemma mb_loop_common fuel queue blocks res :
  Forall (window_ok a b) queue →
  mb_loop a b b2j fuel queue blocks = Some res →
  ∃ ss, Forall2 (common_ok a b) queue ss
        ∧ sum_sizes res = sum_sizes blocks + length (concat ss).
Proof.
  revert queue blocks.
  induction fuel as [|fuel IH]; intros queue blocks Hq Hres.
  { destruct queue as [|[[[alo ahi] blo] bhi] q]; simpl in *; [|done].
    injection Hres as <-. exists []. split; [constructor|simpl; lia]. }
  destruct queue as [|[[[alo ahi] blo] bhi] q]; simpl in *.
  { injection Hres as <-. exists []. split; [constructor|simpl; lia]. }
  apply Forall_cons in Hq as [Hw Hq].
  pose proof (find_longest_match_valid a b b2j alo ahi blo bhi Hsound Hw)
    as Hv.
  destruct (find_longest_match a b b2j alo ahi blo bhi) as [[i j] k].
  destruct (pushed_windows_ok a b _ _ _ _ _ _ _ Hw Hv) as [HwL HwR].
  destruct (bool_decide (k = 0)) eqn:Hk.
  { destruct (IH _ _ Hq Hres) as (ss & Hss & Hsum).
    exists ([] :: ss). split; [|simpl; lia].
    constructor; [apply common_nil|done]. }
  apply bool_decide_eq_false in Hk.
  pose proof common_nil as Hnil.
  destruct ((alo <? i) && (blo <? j)) eqn:HL;
    destruct ((i + k <? ahi) && (j + k <? bhi)) eqn:HR;
    (apply IH in Hres; [|repeat (apply Forall_cons; split); done]);
    destruct Hres as (ss & Hss & Hsum);
    rewrite sum_sizes_app, sum_sizes_cons, sum_sizes_nil in Hsum;
    simpl in Hsum.
  - apply Forall2_cons_inv_l in Hss as (sR & ss1 & HsR & Hss & ->).
    apply Forall2_cons_inv_l in Hss as (sL & ss2 & HsL & Hss & ->).
    destruct (common_join _ _ _ _ _ _ _ sL sR Hw Hv HsL HsR) as [Hc Hlen].
    exists ((sL ++ slice a i (i + k) ++ sR) :: ss2).
    split; [by constructor|].
    simpl in *. rewrite !length_app in *. lia.
  - apply Forall2_cons_inv_l in Hss as (sL & ss2 & HsL & Hss & ->).
    destruct (common_join _ _ _ _ _ _ _ sL [] Hw Hv HsL (Hnil _))
      as [Hc Hlen].
    exists ((sL ++ slice a i (i + k) ++ []) :: ss2).
    split; [by constructor|].
    simpl in *. rewrite !length_app in *. simpl. lia.
  - apply Forall2_cons_inv_l in Hss as (sR & ss1 & HsR & Hss & ->).
    destruct (common_join _ _ _ _ _ _ _ [] sR Hw Hv (Hnil _) HsR)
      as [Hc Hlen].
    exists (([] ++ slice a i (i + k) ++ sR) :: ss1).
    split; [by constructor|].
    simpl in *. rewrite !length_app in *. lia.
  - destruct (common_join _ _ _ _ _ _ _ [] [] Hw Hv (Hnil _) (Hnil _))
      as [Hc Hlen].
    exists (([] ++ slice a i (i + k) ++ []) :: ss).
    split; [by constructor|].
    simpl in *. rewrite !length_app in *. simpl. lia.
Qed.

(** The matched total of [ratio] is the length of a common subsequence
    of [a] and [b]. *)
Lemma matches_common :
  ∃ s, s `sublist_of` a ∧ s `sublist_of` b
       ∧ sum_sizes (get_matching_blocks a b b2j) = length s.
Proof.
  unfold get_matching_blocks, get_matching_blocks_opt.
  destruct (mb_loop a b b2j (mb_fuel a) [(0, length a, 0, length b)] [])
    as [res|] eqn:Hres; simpl.
  2:{ exists []. split_and!; [apply sublist_nil_l..|done]. }
  rewrite sum_sizes_non_adjacent.
  apply mb_loop_common in Hres as (ss & Hss & Hsum).
  2:{ repeat constructor; simpl; lia. }
  apply Forall2_cons_inv_l in Hss as (s & ss' & [Hsa Hsb] & Hss & ->).
  apply Forall2_nil_inv_l in Hss as ->.
  simpl in Hsa, Hsb. rewrite slice_all in Hsa, Hsb.
  exists s. split_and!; [done..|].
  rewrite sum_sizes_nil in Hsum. simpl in Hsum.
  rewrite app_nil_r in Hsum. lia.
Qed.

End Loop.

Lemma calculate_ratio_mono m1 m2 len :
  m1 ≤ m2 → (_calculate_ratio m1 len <= _calculate_ratio m2 len)%Q.
Proof.
  intros H. unfold _calculate_ratio.
  case_bool_decide; [apply Qle_refl|].
  unfold Qle. simpl Qnum. simpl Qden. nia.
Qed.

Lemma calculate_ratio_nonneg m len : (0 <= _calculate_ratio m len)%Q.
Proof.
  unfold _calculate_ratio. case_bool_decide; [done|].
  unfold Qle. simpl Qnum. simpl Qden. lia.
Qed.

Lemma ratio_le_quick_ratio a b : (ratio a b <= quick_ratio a b)%Q.
Proof.
  unfold ratio, ratio_with, quick_ratio. apply calculate_ratio_mono.
  destruct (matches_common a b (chain_b b) (chain_b_sound b))
    as (s & Hsa & Hsb & ->).
  by apply quick_matches_ge.
Qed.

Lemma ratio_le_real_quick_ratio a b :
  (ratio a b <= real_quick_ratio a b)%Q.
Proof.
  unfold ratio, ratio_with, real_quick_ratio. apply calculate_ratio_mono.
  destruct (matches_le a b (chain_b b) (chain_b_sound b)). lia.
Qed.

(** The three tests of [get_close_matches] accept exactly the
    candidates whose [ratio] reaches the cutoff. *)
Lemma good_enough_iff word cutoff x :
  good_enough (chain_b word) word cutoff x = true
  ↔ (cutoff <= ratio x word)%Q.
Proof.
  unfold good_enough. rewrite !andb_true_iff, !Qle_bool_iff.
  fold (ratio x word). split; [by intros [_ ?]|].
  intros H. split_and!; [| |done].
  - eapply Qle_trans; [exact H|apply ratio_le_real_quick_ratio].
  - eapply Qle_trans; [exact H|apply ratio_le_quick_ratio].
Qed.

Lemma good_enough_false_iff word cutoff x :
  good_enough (chain_b word) word cutoff x = false
  ↔ (ratio x word < cutoff)%Q.
Proof.
  rewrite <- not_true_iff_false, good_enough_iff. split.
  - apply Qnot_le_lt.
  - intros H1 H2. by eapply Qlt_not_le.
Qed.

End BoundFacts.

(** ** Further properties of the lookup *)

Module Lookup.
Import Difflib CloseMatches Sklearn App Spec Examples.
Import BlocksFacts ChainFacts SelfMatch QuickFacts CloseFacts SklearnFacts.
Import AppFacts BoundFacts.

(** X1: the [while queue:] loop of [get_matching_blocks], run by every
    [ratio] that [get_close_matches] computes, always ends: started on
    the whole of [a] and [b] with the index built from [b], it empties
    the queue within [2 * len(a) + 1] iterations. *)
Theorem matching_blocks_terminate a b :
  ∃ blocks,
    mb_loop a b (chain_b b) (2 * length a + 1)
      [(0, length a, 0, length b)] [] = Some blocks.
Proof.
  destruct (mb_loop_total a b (chain_b b) (chain_b_sound b)
              (2 * length a + 1) [(0, length a, 0, length b)] [])
    as [blocks H]; [|simpl; lia|by exists blocks].
  repeat constructor; simpl; lia.
Qed.

(** X2: the similarity ratio lies between 0 and 1, and it is 1 exactly
    for equal strings. *)
Theorem ratio_unit a b :
  (0 <= ratio a b)%Q ∧ (ratio a b <= 1)%Q
  ∧ ((ratio a b == 1)%Q ↔ a = b).
Proof.
  split_and!.
  - apply calculate_ratio_nonneg.
  - apply ratio_with_le_1, chain_b_sound.
  - split.
    + intros H. apply (ratio_with_ge_1_eq a b (chain_b b) (chain_b_sound b)).
      fold (ratio a b). rewrite H. apply Qle_refl.
    + intros ->. apply ratio_self.
Qed.

(** X3: [real_quick_ratio] and [quick_ratio] are upper bounds of
    [ratio], so the two cheap tests of [get_close_matches] never reject
    a candidate whose ratio reaches the cutoff: a candidate is kept
    exactly when its ratio does. *)
Theorem cheap_tests_sound word cutoff x :
  (ratio x word <= quick_ratio x word)%Q
  ∧ (ratio x word <= real_quick_ratio x word)%Q
  ∧ (good_enough (chain_b word) word cutoff x = true
     ↔ (cutoff <= ratio x word)%Q).
Proof.
  split_and!;
    [apply ratio_le_quick_ratio|apply ratio_le_real_quick_ratio
    |apply good_enough_iff].
Qed.

Lemma iloc_take_take movies positions rows n :
  iloc_take movies positions = Ok rows →
  iloc_take movies (take n positions) = Ok (take n rows).
Proof.
  revert positions rows. induction n as [|n IH]; intros [|p ps] rows;
    simpl; try by intros [= <-].
  - intros _. by rewrite take_0.
  - destruct (movies !! p) as [row|]; [|done].
    destruct (iloc_take movies ps) as [rows'|] eqn:Hrows; [|done].
    intros [= <-]. by rewrite (IH ps rows') by done.
Qed.



Lemma kneighbors_in_range knn x ds idxs p :
  kneighbors knn x = Ok (ds, idxs) → p ∈ idxs → p < length (fit_X knn).
Proof.
  intros (_ & _ & _ & ->)%kneighbors_Ok Hin.
  rewrite fmap_take in Hin. apply Claims.elem_of_take_1 in Hin.
  rewrite sort_by_distance_perm, distances_to_samples in Hin.
  apply elem_of_seq in Hin. lia.
Qed.

Lemma elem_of_slice_1_to n indices p :
  p ∈ slice_1_to n indices → p ∈ indices.
Proof.
  unfold slice_1_to. intros Hin%Claims.elem_of_take_1.
  eapply elem_of_sublist; [exact Hin|apply sublist_drop].
Qed.

Section WithLower.
Variable lower : list N → list N.

(** X4: the fuzzy match never raises: the string that
    [get_close_matches] returns is the case-folded title of some row,
    so [movies[...].index[0]] always finds a row. *)
Theorem resolve_never_raises movie_title movies :
  ∃ r, resolve lower movie_title movies = Ok r.
Proof.
  destruct (resolve_cases lower movie_title movies)
    as [(-> & _)|(m & idx & row & -> & _)]; eauto.
Qed.

(** X5: the lookup returns "no match" exactly when the ratio of every
    case-folded title to the case-folded input is below 0.3. *)
Theorem no_match_iff movie_title models n w :
  get_recommendations lower movie_title models n w = (Ok (None, None), w)
  ↔ ∀ row, row ∈ movies models →
      (ratio (lower (title row)) (lower movie_title) < 3 # 10)%Q.
Proof.
  rewrite get_recommendations_run.
  destruct (resolve_cases lower movie_title (movies models))
    as [(-> & _ & Hnone)
       |(m & idx & row & -> & _ & Hrow & Hm & _ & Hgood & _)].
  - split; [|done]. intros _ row Hin.
    by apply good_enough_false_iff, Hnone.
  - split.
    + unfold getrow, iloc. rewrite Hrow.
      destruct (tfidf_matrix models !! idx) as [x|]; [|done].
      destruct (kneighbors (knn models) x) as [[ds idxs]|]; [|done].
      by destruct (iloc_take (movies models) (slice_1_to n idxs)).
    + intros Hlow. exfalso.
      apply good_enough_iff in Hgood. rewrite <- Hm in Hgood.
      eapply Qlt_not_le; [|exact Hgood].
      apply Hlow. by eapply list_elem_of_lookup_2.
Qed.

(** X6: the resolved row is a best match: no title of the catalog has
    a higher ratio to the case-folded input than the resolved one. *)
Theorem resolved_is_best movie_title models n w recs orig w' :
  get_recommendations lower movie_title models n w
  = (Ok (recs, Some orig), w') →
  ∀ row, row ∈ movies models →
    (ratio (lower (title row)) (lower movie_title)
     <= ratio (lower (title orig)) (lower movie_title))%Q.
Proof.
  intros Hrun row Hin.
  apply get_recommendations_original in Hrun as (m & idx & Hres & Ho).
  destruct (resolve_cases lower movie_title (movies models))
    as [(Hnone & _)
       |(m' & idx' & row' & Hres' & _ & Hrow & Hm & _ & Hgood & Hmax)];
    [congruence|].
  rewrite Hres in Hres'. injection Hres' as <- <-.
  rewrite Ho in Hrow. injection Hrow as <-. rewrite Hm.
  destruct (good_enough (chain_b (lower movie_title)) (lower movie_title)
              (3 # 10) (lower (title row))) eqn:Hg.
  - by apply Hmax.
  - apply good_enough_false_iff in Hg. apply good_enough_iff in Hgood.
    apply Qlt_le_weak. by eapply Qlt_le_trans.
Qed.

(** X7: an input that differs from a title only by case resolves to
    the first row whose case-folded title equals the case-folded
    input, never to a merely similar title. *)
Theorem case_insensitive_hit movie_title movies row :
  row ∈ movies →
  lower movie_title = lower (title row) →
  ∃ idx orig,
    resolve lower movie_title movies
    = Ok (Some (lower movie_title, idx))
    ∧ movies !! idx = Some orig
    ∧ lower (title orig) = lower movie_title
    ∧ ∀ p r, movies !! p = Some r →
             lower (title r) = lower movie_title → idx ≤ p.
Proof.
  intros Hin Heq. set (word := lower movie_title) in *.
  destruct (resolve_cases lower movie_title movies)
    as [(_ & _ & Hnone)
       |(m & idx & orig & Hres & _ & Ho & Hm & Hfirst & Hgood & Hmax)].
  { specialize (Hnone row Hin). fold word in Hnone.
    rewrite <- Heq in Hnone. by rewrite good_enough_self in Hnone. }
  fold word in Hres, Hgood, Hmax.
  assert (Hmw : m = word).
  { apply (ratio_with_ge_1_eq m word (chain_b word) (chain_b_sound word)).
    fold (ratio m word).
    eapply Qle_trans; [|apply (Hmax row Hin)].
    - rewrite <- Heq, ratio_self. apply Qle_refl.
    - rewrite <- Heq. apply good_enough_self. }
  rewrite Hmw in Hres, Hm, Hfirst. by exists idx, orig.
Qed.

(** X8: the rows returned are rows of the catalog, each with its own
    position as label, no row is returned twice, and every position is
    one of a fitted sample. *)
Theorem recommendations_distinct movie_title models n w recs orig w' :
  get_recommendations lower movie_title models n w
  = (Ok (Some recs, orig), w') →
  NoDup recs.*1
  ∧ ∀ p row, (p, row) ∈ recs →
      movies models !! p = Some row ∧ p < length (fit_X (knn models)).
Proof.
  intros Hrun.
  apply get_recommendations_Some
    in Hrun as (m & idx & x & ds & idxs & o & _ & _ & Hk & Hrecs & _).
  apply iloc_take_spec in Hrecs as [Hpos Hrows]. split.
  - rewrite Hpos. unfold slice_1_to.
    eapply sublist_NoDup; [by eapply kneighbors_NoDup|].
    etrans; [apply sublist_take|apply sublist_drop].
  - intros p row Hin. split; [by apply Hrows|].
    eapply kneighbors_in_range; [exact Hk|].
    apply (elem_of_slice_1_to n). rewrite <- Hpos.
    apply list_elem_of_fmap. by exists (p, row).
Qed.

(** X10: asking for fewer rows gives a prefix: the lookup with [n]
    returns the first [n] rows of the lookup with any larger count. *)
Theorem recommendations_prefix movie_title models n n' w recs orig w' :
  n ≤ n' →
  get_recommendations lower movie_title models n' w
  = (Ok (Some recs, orig), w') →
  get_recommendations lower movie_title models n w
  = (Ok (Some (take n recs), orig), w').
Proof.
  intros Hn Hrun.
  apply get_recommendations_Some
    in Hrun as (m & idx & x & ds & idxs & o & Hres & Hx & Hk & Hrecs & Ho
                & -> & ->).
  rewrite get_recommendations_run, Hres. unfold getrow, iloc.
  rewrite Hx, Hk, Ho. cbn zeta.
  apply (iloc_take_take _ _ _ n) in Hrecs.
  unfold slice_1_to in *. rewrite take_take in Hrecs.
  replace (n `min` n') with n in Hrecs by lia.
  by rewrite Hrecs.
Qed.



(** X9: the rows returned are nearest neighbours.  Apart from the
    sample that the index lists first (and that the slice drops), no
    sample left out of the result is closer to the feature vector of the
    resolved row than a returned one. *)
Theorem recommendations_nearest movie_title models n w recs orig w' :
  get_recommendations lower movie_title models n w
  = (Ok (Some recs, Some orig), w') →
  ∃ idx x ds first rest,
    movies models !! idx = Some orig
    ∧ tfidf_matrix models !! idx = Some x
    ∧ kneighbors (knn models) x = Ok (ds, first :: rest)
    ∧ ∀ p q vp vq,
        p ∈ recs.*1 → q ∉ recs.*1 → q ≠ first →
        fit_X (knn models) !! p = Some vp →
        fit_X (knn models) !! q = Some vq →
        (metric (knn models) x vp <= metric (knn models) x vq)%Q.
Proof.
  intros Hrun.
  apply get_recommendations_Some
    in Hrun as (m & idx & x & ds & idxs & o & _ & Hx & Hk & Hrecs & Ho
                & Heq & _).
  injection Heq as ->.
  apply iloc_take_spec in Hrecs as [Hpos _].
  pose proof (kneighbors_Ok _ _ _ _ Hk) as (HK1 & HK2 & _ & Hidxs).
  set (L := sort_by_distance (distances_to (knn models) x)) in *.
  assert (HL : length L = length (fit_X (knn models)))
    by apply length_distances_to.
  destruct L as [|[d0 first] L'] eqn:HLeq; [simpl in HL; lia|].
  destruct (n_neighbors (knn models)) as [|K'] eqn:HK; [lia|].
  exists idx, x, ds, first, (take K' L').*2.
  split_and!; [done|done|by rewrite Hk, Hidxs|].
  assert (Hsorted : StronglySorted by_distance ((d0, first) :: L')).
  { rewrite <- HLeq. apply sort_by_distance_sorted. }
  assert (Hrec : recs.*1 = (take n (take K' L')).*2).
  { rewrite Hpos, Hidxs. unfold slice_1_to. simpl.
    by rewrite drop_0, <- fmap_take. }
  assert (Hmem : ∀ d p, (d, p) ∈ (d0, first) :: L' →
    ∃ v, fit_X (knn models) !! p = Some v ∧ d = metric (knn models) x v).
  { intros d p Hin. apply elem_of_distances_to.
    rewrite <- sort_by_distance_perm. fold L. by rewrite HLeq. }
  intros p q vp vq Hp Hq Hqf Hvp Hvq.
  rewrite Hrec in Hp, Hq.
  apply list_elem_of_fmap in Hp as ([dp p'] & -> & Hp). simpl in *.
  apply list_elem_of_lookup in Hp as [i Hi].
  apply lookup_take_Some in Hi as [Hi Hin].
  apply lookup_take_Some in Hi as [Hi HiK].
  destruct (Hmem dp p') as (v & Hv & ->).
  { right. by eapply list_elem_of_lookup_2. }
  rewrite Hvp in Hv. injection Hv as <-.
  assert (Hqin : (metric (knn models) x vq, q) ∈ (d0, first) :: L').
  { rewrite <- HLeq. unfold L. rewrite sort_by_distance_perm.
    apply elem_of_distances_to. eauto. }
  apply elem_of_cons in Hqin as [[= _ ->]|Hqin]; [done|].
  apply list_elem_of_lookup in Hqin as [t Ht].
  assert (Hit : i < t).
  { destruct (decide (i < t)) as [|Hge]; [done|]. exfalso. apply Hq.
    apply list_elem_of_fmap. exists (metric (knn models) x vq, q).
    split; [done|]. apply (list_elem_of_lookup_2 _ t).
    apply lookup_take_Some. split; [|lia].
    apply lookup_take_Some. split; [done|lia]. }
  apply (StronglySorted_lookup by_distance ((d0, first) :: L')
           (S i) (S t) (metric (knn models) x vp, p')
           (metric (knn models) x vq, q)); [done|lia|done|done].
Qed.

End WithLower.

(** *** The lookup on the sample store *)

Lemma resolved_is_best_witness :
  (ratio (ascii_lower (title heat_1995)) (ascii_lower (py_str "dark knight"))
   <= ratio (ascii_lower (title dark_knight))
        (ascii_lower (py_str "dark knight")))%Q.
Proof.
  eapply (resolved_is_best ascii_lower (py_str "dark knight") store 5
            loaded _ dark_knight _).
  - vm_compute. reflexivity.
  - do 3 right. by left.
Defined.

Lemma case_insensitive_hit_witness :
  ∃ idx orig,
    resolve ascii_lower (py_str "hEaT") catalog
    = Ok (Some (ascii_lower (py_str "hEaT"), idx))
    ∧ catalog !! idx = Some orig
    ∧ ascii_lower (title orig) = ascii_lower (py_str "hEaT")
    ∧ ∀ p r, catalog !! p = Some r →
             ascii_lower (title r) = ascii_lower (py_str "hEaT") →
             idx ≤ p.
Proof.
  apply (case_insensitive_hit ascii_lower (py_str "hEaT") catalog
           heat_1995).
  - do 3 right. by left.
  - vm_compute. reflexivity.
Defined.

Lemma recommendations_distinct_witness :
  NoDup [(1, aliens); (2, heat_1986)].*1
  ∧ ∀ p row, (p, row) ∈ [(1, aliens); (2, heat_1986)] →
      movies store !! p = Some row ∧ p < length (fit_X (knn store)).
Proof.
  eapply (recommendations_distinct ascii_lower (py_str "Alien") store 5
            loaded [(1, aliens); (2, heat_1986)] (Some alien) _).
  vm_compute. reflexivity.
Defined.

Lemma recommendations_nearest_witness :
  ∃ idx x ds first rest,
    movies store !! idx = Some alien
    ∧ tfidf_matrix store !! idx = Some x
    ∧ kneighbors (knn store) x = Ok (ds, first :: rest)
    ∧ ∀ p q vp vq,
        p ∈ [(1, aliens); (2, heat_1986)].*1 →
        q ∉ [(1, aliens); (2, heat_1986)].*1 → q ≠ first →
        fit_X (knn store) !! p = Some vp →
        fit_X (knn store) !! q = Some vq →
        (metric (knn store) x vp <= metric (knn store) x vq)%Q.
Proof.
  eapply (recommendations_nearest ascii_lower (py_str "Alien") store 5
            loaded [(1, aliens); (2, heat_1986)] alien _).
  vm_compute. reflexivity.
Defined.

Lemma recommendations_prefix_witness :
  get_recommendations ascii_lower (py_str "Alien") store 1 loaded
  = (Ok (Some (take 1 [(1, aliens); (2, heat_1986)]), Some alien),
     (get_recommendations ascii_lower (py_str "Alien") store 5 loaded).2).
Proof.
  apply (recommendations_prefix ascii_lower (py_str "Alien") store 1 5
           loaded); [lia|].
  vm_compute. reflexivity.
Defined.



End Lookup.

(** ** Further properties of the handlers *)

Module Handlers.
Import Difflib CloseMatches Sklearn App Spec Examples.
Import SklearnFacts AppFacts.

Lemma after_refl w : after 0 w w.
Proof.
  split_and!; [done|by right| |].
  - exists []. by rewrite app_nil_r.
  - exists []. by rewrite app_nil_r.
Qed.

Lemma after_weaken n n' w w' : n ≤ n' → after n w w' → after n' w w'.
Proof.
  intros Hn (Hf & Hc & (qs & Hq & Hlen) & Hp).
  split_and!; [done..| |done]. exists qs. split; [done|lia].
Qed.

Lemma after_trans n1 n2 w w1 w2 :
  after n1 w w1 → after n2 w1 w2 → after (n1 + n2) w w2.
Proof.
  intros (Hf1 & Hc1 & (qs1 & Hq1 & Hl1) & (e1 & Hp1))
         (Hf2 & Hc2 & (qs2 & Hq2 & Hl2) & (e2 & Hp2)).
  split_and!.
  - congruence.
  - destruct (cache w) as [m|] eqn:Hc; [|by left]. right.
    destruct Hc1 as [?|Hc1]; [done|].
    destruct Hc2 as [Hc2|Hc2]; congruence.
  - exists (qs1 ++ qs2). rewrite Hq2, Hq1, length_app, app_assoc.
    split; [done|lia].
  - exists (e1 ++ e2). by rewrite Hp2, Hp1, app_assoc.
Qed.

(** Sequencing two handlers adds up what they may do. *)
Lemma after_bind {A B} (m : M A) (k : A → M B) n1 n2 :
  (∀ w, after n1 w (m w).2) →
  (∀ x w, after n2 w (k x w).2) →
  ∀ w, after (n1 + n2) w ((m ≫= k) w).2.
Proof.
  intros Hm Hk w. unfold mbind, M_bind, bind.
  specialize (Hm w). destruct (m w) as [[x|e] w1]; simpl in *.
  - eapply after_trans; [exact Hm|apply Hk].
  - eapply after_weaken; [|exact Hm]. lia.
Qed.

Lemma after_show ev w : after 0 w (show ev w).2.
Proof.
  split_and!; simpl; [done|by right| |by exists [ev]].
  exists []. by rewrite app_nil_r.
Qed.

Lemma after_lift {A} (r : result A) w : after 0 w (lift r w).2.
Proof. apply after_refl. Qed.

Lemma after_load_models w : after 0 w (load_models w).2.
Proof.
  unfold load_models. destruct (cache w) eqn:Hc; [apply after_refl|].
  destruct (read_models (files w)); [|apply after_refl].
  split_and!; simpl; [done|by left| |].
  - exists []. by rewrite app_nil_r.
  - exists []. by rewrite app_nil_r.
Qed.

Lemma after_log_kneighbors x w : after 1 w (log_kneighbors x w).2.
Proof.
  split_and!; simpl; [done|by right|by exists [x]|].
  exists []. by rewrite app_nil_r.
Qed.

Section WithLower.
Variable lower : list N → list N.

Lemma after_get_recommendations movie_title models n w :
  after 1 w (get_recommendations lower movie_title models n w).2.
Proof.
  rewrite get_recommendations_run.
  destruct (resolve lower movie_title (movies models))
    as [[[m idx]|]|e]; [|apply after_weaken with 0; [lia|apply after_refl]..].
  destruct (getrow (tfidf_matrix models) idx) as [x|e];
    [|apply after_weaken with 0; [lia|apply after_refl]].
  cbn zeta.
  destruct (kneighbors (knn models) x) as [[ds idxs]|e];
    [|apply after_log_kneighbors].
  destruct (iloc_take (movies models) (slice_1_to n idxs));
    [|apply after_log_kneighbors].
  destruct (iloc (movies models) idx); apply after_log_kneighbors.
Qed.

Lemma after_render recommendations original w :
  after 0 w (render recommendations original w).2.
Proof.
  destruct recommendations as [recs|]; [|apply after_show].
  destruct original as [o|]; [|apply after_refl]. simpl.
  apply (after_bind _ _ 0 0); [apply after_show|]. intros _.
  apply (after_bind _ _ 0 0); [apply after_show|]. intros _.
  apply (after_bind _ _ 0 0).
  { clear. induction recs as [|r recs IH]; simpl; [apply after_refl|].
    apply (after_bind _ _ 0 0); [apply after_show|]. by intros _. }
  intros _. apply (after_bind _ _ 0 0); [apply after_show|]. intros _.
  unfold show_charts.
  apply (after_bind _ _ 0 0); [apply after_show|]. intros _.
  apply (after_bind _ _ 0 0); [apply after_show|]. intros _.
  apply after_show.
Qed.

(** X13: whatever the input and whether or not the button was clicked,
    and also when it raises, one run of [main] leaves the files alone,
    never replaces a cached store, only appends to the page and queries
    the neighbour index at most once. *)
Theorem main_frame movie_title clicked w :
  after 1 w (main lower movie_title clicked w).2.
Proof.
  unfold main.
  apply (after_bind _ _ 0 1); [apply after_show|]. intros _.
  apply (after_bind _ _ 0 1); [apply after_show|]. intros _.
  apply (after_bind _ _ 0 1); [apply after_load_models|]. intros models.
  apply (after_bind _ _ 1 0); [|intros _; apply after_show].
  destruct clicked; [|intros w0; apply after_weaken with 0;
                               [lia|apply after_refl]].
  case_bool_decide.
  - apply (after_bind _ _ 1 0);
      [apply after_get_recommendations|].
    intros [recs orig]. apply after_render.
  - intros w0. apply after_weaken with 0; [lia|apply after_show].
Qed.

(** The start of every run of [main]: style sheet, header, models. *)
Lemma main_run movie_title clicked models w :
  (load_models w).1 = Ok models →
  main lower movie_title clicked w
  = ((if clicked then
        if bool_decide (movie_title ≠ []) then
          '(recommendations, original) ←
            get_recommendations lower movie_title models 5;
          render recommendations original
        else show (Warning "Please enter a movie title to get recommendations")
      else mret tt);;
     show (Markdown "footer"))
      {| files := files w; cache := Some models;
         kneighbors_log := kneighbors_log w;
         page := page w ++ [Markdown "<style>"; Markdown "header"] |}.
Proof.
  intros Hload. unfold main at 1.
  unfold mbind at 1 2 3, M_bind at 1 2 3, bind at 1 2 3.
  rewrite !Claims.show_run. simpl. rewrite <- app_assoc. simpl.
  rewrite (Claims.load_models_page
             w [Markdown "<style>"; Markdown "header"]).
  rewrite Hload.
  assert (Hc : cache (load_models w).2 = Some models).
  { unfold load_models in *. destruct (cache w) eqn:Hcw; simpl in *.
    - by injection Hload as ->.
    - destruct (read_models (files w)); simpl in *; [|done].
      by injection Hload as ->. }
  by rewrite Hc.
Qed.

(** X14: a click with an empty input shows the warning and nothing
    else between header and footer; neither the matcher's result nor
    the neighbour index is consulted. *)
Theorem empty_input_warns models w :
  (load_models w).1 = Ok models →
  ∃ w',
    main lower [] true w = (Ok tt, w')
    ∧ kneighbors_log w' = kneighbors_log w
    ∧ page w'
      = page w
        ++ [Markdown "<style>"; Markdown "header";
            Warning "Please enter a movie title to get recommendations";
            Markdown "footer"].
Proof.
  intros Hload. rewrite (main_run [] true models w Hload).
  rewrite bool_decide_eq_false_2 by (by intros H).
  unfold mbind, M_bind, bind. rewrite !Claims.show_run. simpl.
  eexists. split; [reflexivity|]. simpl.
  split; [done|]. by rewrite <- !app_assoc.
Qed.

(** X15: a run without a click renders the header and the footer
    only, whatever the text input holds; the models are loaded all the
    same and stay cached. *)
Theorem idle_run movie_title models w :
  (load_models w).1 = Ok models →
  ∃ w',
    main lower movie_title false w = (Ok tt, w')
    ∧ cache w' = Some models
    ∧ kneighbors_log w' = kneighbors_log w
    ∧ page w'
      = page w ++ [Markdown "<style>"; Markdown "header"; Markdown "footer"].
Proof.
  intros Hload. rewrite (main_run movie_title false models w Hload).
  unfold mbind, M_bind, bind, mret, M_ret, ret.
  rewrite !Claims.show_run. simpl.
  eexists. split; [reflexivity|]. simpl.
  split_and!; [done..|]. by rewrite <- !app_assoc.
Qed.


(** X17: the store is loaded once.  After a successful call the cache
    holds the store, and every later call returns that store without
    reading the files, whatever has happened to them. *)
Theorem load_models_once models w :
  (load_models w).1 = Ok models →
  cache (load_models w).2 = Some models
  ∧ ∀ d log pg,
      load_models {| files := d; cache := cache (load_models w).2;
                     kneighbors_log := log; page := pg |}
      = (Ok models,
         {| files := d; cache := cache (load_models w).2;
            kneighbors_log := log; page := pg |}).
Proof.
  intros Hload.
  assert (Hc : cache (load_models w).2 = Some models).
  { unfold load_models in *. destruct (cache w) eqn:Hcw; simpl in *.
    - by injection Hload as ->.
    - destruct (read_models (files w)); simpl in *; [|done].
      by injection Hload as ->. }
  split; [done|]. intros d log pg. unfold load_models at 1. simpl.
  by rewrite Hc.
Qed.

(** X18: a failing load caches nothing and leaves the process state
    as it was, so that once all three files are readable the next call
    loads them. *)
Theorem load_models_retry e w :
  (load_models w).1 = Raise e →
  (load_models w).2 = w
  ∧ cache w = None
  ∧ ∀ models log pg,
      (load_models {| files := disk_of models;
                      cache := cache (load_models w).2;
                      kneighbors_log := log; page := pg |}).1
      = Ok models.
Proof.
  unfold load_models. destruct (cache w) eqn:Hc; [done|].
  destruct (read_models (files w)) as [m|e'] eqn:Hr; [done|].
  simpl. intros [= ->]. split_and!; [done..|].
  intros models log pg. rewrite Hc. by destruct models.
Qed.

End WithLower.

(** *** The handlers on the sample store *)

Lemma empty_input_warns_witness :
  ∃ w',
    main ascii_lower [] true loaded = (Ok tt, w')
    ∧ kneighbors_log w' = kneighbors_log loaded
    ∧ page w'
      = page loaded
        ++ [Markdown "<style>"; Markdown "header";
            Warning "Please enter a movie title to get recommendations";
            Markdown "footer"].
Proof. apply (empty_input_warns ascii_lower store loaded). reflexivity. Defined.

Lemma idle_run_witness :
  ∃ w',
    main ascii_lower (py_str "Alien") false (fresh (disk_of store))
    = (Ok tt, w')
    ∧ cache w' = Some store
    ∧ kneighbors_log w' = kneighbors_log (fresh (disk_of store))
    ∧ page w'
      = page (fresh (disk_of store))
        ++ [Markdown "<style>"; Markdown "header"; Markdown "footer"].
Proof.
  apply (idle_run ascii_lower (py_str "Alien") store (fresh (disk_of store))).
  reflexivity.
Defined.


Lemma load_models_once_witness :
  cache (load_models (fresh (disk_of store))).2 = Some store
  ∧ ∀ d log pg,
      load_models {| files := d;
                     cache := cache (load_models (fresh (disk_of store))).2;
                     kneighbors_log := log; page := pg |}
      = (Ok store,
         {| files := d;
            cache := cache (load_models (fresh (disk_of store))).2;
            kneighbors_log := log; page := pg |}).
Proof.
  apply (load_models_once store (fresh (disk_of store))). reflexivity.
Defined.

Lemma load_models_retry_witness :
  (load_models no_index).2 = no_index
  ∧ cache no_index = None
  ∧ ∀ models log pg,
      (load_models {| files := disk_of models;
                      cache := cache (load_models no_index).2;
                      kneighbors_log := log; page := pg |}).1
      = Ok models.
Proof.
  apply (load_models_retry FileNotFoundError no_index). reflexivity.
Defined.

End Handlers.
